(** * MachinePro: text-to-record extraction, recency filtering, outlier
      rejection and the offline valuation path

    A shallow embedding of [app/agents/rag_retriever.py] and of the offline
    branch of [app/agents/valuator.py].

    Modelling conventions.
    - A Python [str] is a list of characters ([text]); characters are code
      points below 256.  [\s] and [str.strip] use the white-space code points
      of that range, [\d] the ten ASCII digits, [str.upper] the upper-case
      mapping of that range.
    - A Python [float] holding a price is a rational number ([Q]): sums, means
      and percentiles are computed exactly.  The source computes them in
      binary64, whose result can differ from the exact one in the last
      place: at a tie of the rounding to the cent, or for a price that sits
      on an outlier bound.
    - Regular expressions are values of [Re.regex], executed by a backtracking
      matcher with the priorities of Python's [re] (leftmost start, first
      alternative first, greedy repetition).
    - [datetime.now()] is a parameter [now], an instant in microseconds since
      the midnight that starts proleptic Gregorian day 0. *)

From Stdlib Require Import String Ascii Bool Arith ZArith QArith Qround Lia.
From Stdlib Require Import DecimalString Lqa.
From Stdlib Require Import List.
Import ListNotations.

Set Implicit Arguments.

(** ** Text *)

Definition text := list ascii.

Definition str (s : string) : text := list_ascii_of_string s.

Definition code (c : ascii) : nat := nat_of_ascii c.

Definition in_range (lo hi : nat) (c : ascii) : bool :=
  (lo <=? code c) && (code c <=? hi).

Definition is_digit : ascii -> bool := in_range 48 57.
Definition is_upper : ascii -> bool := in_range 65 90.
Definition is_lower : ascii -> bool := in_range 97 122.
Definition is_alpha (c : ascii) : bool := is_upper c || is_lower c.

(** The characters [str.isspace] accepts, which are also those [\s] matches. *)
Definition is_space (c : ascii) : bool :=
  in_range 9 13 c || in_range 28 32 c
  || (code c =? 133) || (code c =? 160).

Definition is_char (a c : ascii) : bool := Ascii.eqb a c.

Fixpoint text_eqb (a b : text) : bool :=
  match a, b with
  | [], [] => true
  | x :: a', y :: b' => Ascii.eqb x y && text_eqb a' b'
  | _, _ => false
  end.

Fixpoint starts_with (p s : text) : bool :=
  match p, s with
  | [], _ => true
  | x :: p', y :: s' => Ascii.eqb x y && starts_with p' s'
  | _ :: _, [] => false
  end.

(** [needle in hay] *)
Fixpoint contains (needle hay : text) : bool :=
  starts_with needle hay ||
  match hay with
  | [] => false
  | _ :: hay' => contains needle hay'
  end.

(** [str.upper] on one character below code point 256: a-z and the
    accented lower-case letters 224-246 and 248-254 move down by 32, the
    sharp s (223) becomes SS, every other character stays.  The capitals of
    the micro sign (181) and of y with diaeresis (255) lie above 255; the
    two stand here for their capitals, which no comparison of this program
    can tell from them, the roster being ASCII. *)
Definition upper_char (c : ascii) : text :=
  if is_lower c || in_range 224 246 c || in_range 248 254 c
  then [ascii_of_nat (code c - 32)]
  else if code c =? 223 then ["S"%char; "S"%char]
  else [c].

Definition upper (s : text) : text := flat_map upper_char s.

Fixpoint lstrip (s : text) : text :=
  match s with
  | c :: s' => if is_space c then lstrip s' else s
  | [] => []
  end.

Definition rstrip (s : text) : text := rev (lstrip (rev s)).

(** [str.strip()] *)
Definition strip (s : text) : text := rstrip (lstrip s).

(** ** Regular expressions *)

Module Re.

Inductive regex : Type :=
| Eps : regex
| Cls : (ascii -> bool) -> regex
| Seq : regex -> regex -> regex
| Alt : regex -> regex -> regex
| Star : regex -> regex
| Grp : nat -> regex -> regex.

Definition Plus (r : regex) : regex := Seq r (Star r).
Definition Opt (r : regex) : regex := Alt r Eps.
Definition Chr (c : ascii) : regex := Cls (is_char c).

Fixpoint Lit (s : text) : regex :=
  match s with
  | [] => Eps
  | c :: s' => Seq (Chr c) (Lit s')
  end.

Fixpoint cat (rs : list regex) : regex :=
  match rs with
  | [] => Eps
  | [r] => r
  | r :: rs' => Seq r (cat rs')
  end.

Fixpoint alts (rs : list regex) : regex :=
  match rs with
  | [] => Cls (fun _ => false)
  | [r] => r
  | r :: rs' => Alt r (alts rs')
  end.

(** Captured groups, most recent binding first. *)
Definition captures := list (nat * text).

Fixpoint group (n : nat) (caps : captures) : option text :=
  match caps with
  | [] => None
  | (m, w) :: caps' => if m =? n then Some w else group n caps'
  end.

Section Matcher.
Variable R : Type.

(** [run r s caps k] matches [r] at the head of [s] and hands the rest of
    the input to [k]; when [k] refuses, the matcher backtracks. *)
Fixpoint run (r : regex) (s : text) (caps : captures)
    (k : text -> captures -> option R) {struct r} : option R :=
  match r with
  | Eps => k s caps
  | Cls p =>
      match s with
      | c :: s' => if p c then k s' caps else None
      | [] => None
      end
  | Seq r1 r2 => run r1 s caps (fun s1 c1 => run r2 s1 c1 k)
  | Alt r1 r2 =>
      match run r1 s caps k with
      | Some x => Some x
      | None => run r2 s caps k
      end
  | Star r1 =>
      (fix star (fuel : nat) (s : text) (caps : captures) : option R :=
         match fuel with
         | O => k s caps
         | S fuel' =>
             match run r1 s caps
                     (fun s1 c1 =>
                        if length s1 <? length s then star fuel' s1 c1
                        else None) with
             | Some x => Some x
             | None => k s caps
             end
         end) (length s) s caps
  | Grp n r1 =>
      run r1 s caps
        (fun s1 c1 => k s1 ((n, firstn (length s - length s1) s) :: c1))
  end.
End Matcher.

(** One successful [re.search]: the text skipped before the match, the
    matched text, the text after it and the groups. *)
Record found : Type := Found {
  before : text;
  matched : text;
  after : text;
  groups : captures
}.

Definition match_here (r : regex) (s : text) : option (text * captures) :=
  run r s [] (fun s' c => Some (s', c)).

Fixpoint search_acc (r : regex) (skipped : text) (s : text) : option found :=
  match match_here r s with
  | Some (s', c) =>
      Some (Found (rev skipped) (firstn (length s - length s') s) s' c)
  | None =>
      match s with
      | [] => None
      | c :: s' => search_acc r (c :: skipped) s'
      end
  end.

(** [re.search(r, s)] *)
Definition search (r : regex) (s : text) : option found := search_acc r [] s.

(** The scan shared by [re.findall] and [re.sub]: successive matches, left
    to right, never overlapping.  [before] of each match is the text since
    the end of the previous one.  After an empty match the scan moves one
    character on (no pattern of this program matches the empty text). *)
Fixpoint scan (fuel : nat) (r : regex) (skipped s : text) : list found :=
  match fuel with
  | O => []
  | S fuel' =>
      match search_acc r skipped s with
      | None => []
      | Some f =>
          f :: match matched f, after f with
               | [], [] => []
               | [], c :: rest => scan fuel' r [c] rest
               | _ :: _, rest => scan fuel' r [] rest
               end
      end
  end.

Definition matches_of (r : regex) (s : text) : list found :=
  scan (S (length s)) r [] s.

(** [re.findall(r, s)] for a pattern with one group: the group's text for
    each match. *)
Definition findall (r : regex) (s : text) : list text :=
  map (fun f => match group 1 (groups f) with Some w => w | None => [] end)
      (matches_of r s).

Fixpoint sub_join (repl : captures -> text) (fs : list found) (tail : text)
    : text :=
  match fs with
  | [] => tail
  | f :: fs' => before f ++ repl (groups f) ++ sub_join repl fs' (after f)
  end.

(** [re.sub(r, repl, s)] *)
Definition sub (r : regex) (repl : captures -> text) (s : text) : text :=
  sub_join repl (matches_of r s) s.

(** What it means for a regex to match a text: [matches r w c c'] says that
    [r] matches exactly [w] and turns the groups [c] into [c']. *)
Inductive matches : regex -> text -> captures -> captures -> Prop :=
| M_Eps : forall c, matches Eps [] c c
| M_Cls : forall p a c, p a = true -> matches (Cls p) [a] c c
| M_Seq : forall r1 r2 w1 w2 c c1 c2,
    matches r1 w1 c c1 -> matches r2 w2 c1 c2 ->
    matches (Seq r1 r2) (w1 ++ w2) c c2
| M_AltL : forall r1 r2 w c c1, matches r1 w c c1 -> matches (Alt r1 r2) w c c1
| M_AltR : forall r1 r2 w c c1, matches r2 w c c1 -> matches (Alt r1 r2) w c c1
| M_Star0 : forall r c, matches (Star r) [] c c
| M_StarS : forall r w1 w2 c c1 c2,
    matches r w1 c c1 -> matches (Star r) w2 c1 c2 ->
    matches (Star r) (w1 ++ w2) c c2
| M_Grp : forall n r w c c1,
    matches r w c c1 -> matches (Grp n r) w c ((n, w) :: c1).

Fixpoint has_group (r : regex) : bool :=
  match r with
  | Eps | Cls _ => false
  | Seq r1 r2 | Alt r1 r2 => has_group r1 || has_group r2
  | Star r1 => has_group r1
  | Grp _ _ => true
  end.

End Re.

(** ** Passage Normalizer *)

Definition grp (n : nat) (c : Re.captures) : text :=
  match Re.group n c with Some w => w | None => [] end.

(** [\s+] *)
Definition re_spaces : Re.regex := Re.Plus (Re.Cls is_space).

(** [\$\s*(\d+),(\d+)] *)
Definition re_dollar_grouped : Re.regex :=
  Re.cat [Re.Chr "$"; Re.Star (Re.Cls is_space);
          Re.Grp 1 (Re.Plus (Re.Cls is_digit)); Re.Chr ",";
          Re.Grp 2 (Re.Plus (Re.Cls is_digit))].

Definition clean_and_normalize_text (t : text) : text :=
  let t := strip (Re.sub re_spaces (fun _ => str " ") t) in
  Re.sub re_dollar_grouped (fun c => str "$" ++ grp 1 c ++ grp 2 c) t.

(** ** Field Extractor: prices *)

Definition re_digits_commas : Re.regex :=
  Re.Plus (Re.Cls (fun c => is_digit c || is_char "," c)).

(** [(?:\.\d+)?] *)
Definition re_opt_fraction : Re.regex :=
  Re.Opt (Re.Seq (Re.Chr ".") (Re.Plus (Re.Cls is_digit))).

(** The three entries of [price_patterns], in the order of the source. *)
Definition re_price_dollar_sign : Re.regex :=
  Re.cat [Re.Chr "$"; Re.Star (Re.Cls is_space);
          Re.Grp 1 re_digits_commas; re_opt_fraction].

Definition re_price_dollars_word : Re.regex :=
  Re.cat [Re.Grp 1 re_digits_commas; re_opt_fraction;
          Re.Star (Re.Cls is_space); Re.Lit (str "dollars")].

Definition re_price_usd : Re.regex :=
  Re.cat [Re.Grp 1 re_digits_commas; re_opt_fraction;
          Re.Star (Re.Cls is_space); Re.Lit (str "USD")].

Definition price_patterns : list Re.regex :=
  [re_price_dollar_sign; re_price_dollars_word; re_price_usd].

(** [match.replace(',', '')] *)
Definition remove_commas (m : text) : text :=
  filter (fun c => negb (is_char "," c)) m.

Definition digit_value (c : ascii) : Z := Z.of_nat (code c - 48).

Definition digits_value (s : text) : Z :=
  fold_left (fun acc c => 10 * acc + digit_value c)%Z s 0%Z.

(** [float(price_str)] on the texts a price pattern can capture: a non-empty
    run of digits is its value, anything else (the empty text left by a match
    made of commas only) raises [ValueError], here [None]. *)
Definition float_of_text (s : text) : option Q :=
  match s with
  | [] => None
  | _ => if forallb is_digit s then Some (inject_Z (digits_value s)) else None
  end.

(** [1000 <= price <= 1000000] *)
Definition reasonable_price (p : Q) : bool :=
  Qle_bool 1000 p && Qle_bool p 1000000.

(** The body of the inner loop: [try: ... except: continue]. *)
Definition price_step (all_prices : list Q) (m : text) : list Q :=
  match float_of_text (remove_commas m) with
  | Some price =>
      if reasonable_price price then all_prices ++ [price] else all_prices
  | None => all_prices
  end.

Definition extract_prices (t : text) : list Q :=
  fold_left
    (fun all_prices pattern => fold_left price_step (Re.findall pattern t) all_prices)
    price_patterns [].

(** ** Field Extractor: sale date *)

(** [int(s)] on a captured run of digits; anything else raises. *)
Definition int_of_text (s : text) : option Z :=
  match s with
  | [] => None
  | _ => if forallb is_digit s then Some (digits_value s) else None
  end.

Definition decimal (n : Z) : text :=
  str (NilZero.string_of_int (Z.to_int n)).

(** The format specification [:02d]. *)
Definition format_02d (n : Z) : text :=
  let d := decimal n in
  repeat "0"%char (2 - length d) ++ d.

Definition digit : Re.regex := Re.Cls is_digit.
(** [\d{1,2}] and [\d{4}] *)
Definition digit_1_2 : Re.regex := Re.Seq digit (Re.Opt digit).
Definition digit_4 : Re.regex := Re.cat [digit; digit; digit; digit].

Definition month_names : list text :=
  map str ["January"; "February"; "March"; "April"; "May"; "June"; "July";
           "August"; "September"; "October"; "November"; "December"]%string.

(** [months.index(name)]; raises when the name is absent. *)
Fixpoint index_of (name : text) (l : list text) : option nat :=
  match l with
  | [] => None
  | x :: l' =>
      if text_eqb x name then Some O
      else match index_of name l' with
           | Some i => Some (S i)
           | None => None
           end
  end.

Definition re_mdy_slash : Re.regex :=
  Re.cat [Re.Grp 1 digit_1_2; Re.Chr "/"; Re.Grp 2 digit_1_2; Re.Chr "/";
          Re.Grp 3 digit_4].

Definition re_mdy_dash : Re.regex :=
  Re.cat [Re.Grp 1 digit_1_2; Re.Chr "-"; Re.Grp 2 digit_1_2; Re.Chr "-";
          Re.Grp 3 digit_4].

Definition re_ymd_slash : Re.regex :=
  Re.cat [Re.Grp 1 digit_4; Re.Chr "/"; Re.Grp 2 digit_1_2; Re.Chr "/";
          Re.Grp 3 digit_1_2].

Definition re_month_name : Re.regex :=
  Re.cat [Re.Grp 1 (Re.alts (map Re.Lit month_names));
          Re.Plus (Re.Cls is_space); Re.Grp 2 digit_1_2; Re.Chr ",";
          Re.Plus (Re.Cls is_space); Re.Grp 3 digit_4].

(** A formatter is the lambda paired with a pattern; [None] stands for an
    exception raised while it runs. *)
Definition formatter := Re.captures -> option text.

Definition iso (year : text) (month day : Z) : text :=
  year ++ str "-" ++ format_02d month ++ str "-" ++ format_02d day.

(** [f"{m.group(y)}-{int(m.group(mo)):02d}-{int(m.group(d)):02d}"] *)
Definition fmt_numeric (y mo d : nat) : formatter := fun c =>
  match int_of_text (grp mo c), int_of_text (grp d c) with
  | Some mv, Some dv => Some (iso (grp y c) mv dv)
  | _, _ => None
  end.

Definition fmt_month_name : formatter := fun c =>
  match index_of (grp 1 c) month_names, int_of_text (grp 2 c) with
  | Some i, Some dv => Some (iso (grp 3 c) (Z.of_nat i + 1) dv)
  | _, _ => None
  end.

(** The list [patterns] of [extract_date], in the order of the source. *)
Definition date_patterns : list (Re.regex * formatter) :=
  [ (re_mdy_slash, fmt_numeric 3 1 2);
    (re_mdy_dash, fmt_numeric 3 1 2);
    (re_ymd_slash, fmt_numeric 1 2 3);
    (re_mdy_slash, fmt_numeric 3 2 1);
    (re_month_name, fmt_month_name) ].

(** The loop of [extract_date]: the first pattern that matches and whose
    formatter does not raise decides. *)
Fixpoint first_date (ps : list (Re.regex * formatter)) (t : text)
    : option text :=
  match ps with
  | [] => None
  | (pattern, fmt) :: ps' =>
      match Re.search pattern t with
      | Some m =>
          match fmt (Re.groups m) with
          | Some d => Some d
          | None => first_date ps' t
          end
      | None => first_date ps' t
      end
  end.

Definition extract_date (t : text) : option text := first_date date_patterns t.

(** ** Field Extractor: brand and model *)

Definition brands : list text :=
  map str ["John Deere"; "JOHN DEERE";
           "Case IH"; "CASE IH"; "CASE"; "Case";
           "New Holland"; "NEW HOLLAND";
           "Kubota"; "KUBOTA";
           "Massey Ferguson"; "MASSEY FERGUSON";
           "AGCO"; "Fendt"; "FENDT";
           "Claas"; "CLAAS";
           "DEUTZ-FAHR"; "Deutz-Fahr";
           "Caterpillar"; "CAT"]%string.

Definition unknown_brand : text := str "Unknown".
Definition unknown_model : text := str "Unknown Model".

(** The first loop: the hint against the roster, upper-cased, as a
    substring in either direction.  [if make_hint:] skips [None] and the
    empty text. *)
Definition brand_from_hint (make_hint : option text) : text :=
  match make_hint with
  | None | Some [] => unknown_brand
  | Some hint =>
      let make_upper := upper hint in
      match find (fun brand => contains (upper brand) make_upper
                               || contains make_upper (upper brand)) brands with
      | Some brand => brand
      | None => unknown_brand
      end
  end.

(** The second loop, run only while the brand is still ["Unknown"]. *)
Definition brand_from_text (t : text) (detected : text) : text :=
  if text_eqb detected unknown_brand then
    match find (fun brand => contains brand t) brands with
    | Some brand => brand
    | None => detected
    end
  else detected.

Definition normalize_brand (detected : text) : text :=
  let u := upper detected in
  if contains (str "JOHN DEERE") u then str "John Deere"
  else if contains (str "CASE") u then str "Case"
  else if contains (str "NEW HOLLAND") u then str "New Holland"
  else if contains (str "KUBOTA") u then str "Kubota"
  else if contains (str "MASSEY") u then str "Massey Ferguson"
  else detected.

Definition upper_letter : Re.regex := Re.Cls is_upper.

(** [(\d+[A-Z]+R?)] and [([A-Z]\d+[A-Z]?)] *)
Definition jd_patterns : list Re.regex :=
  [Re.Grp 1 (Re.cat [Re.Plus digit; Re.Plus upper_letter; Re.Opt (Re.Chr "R")]);
   Re.Grp 1 (Re.cat [upper_letter; Re.Plus digit; Re.Opt upper_letter])].

(** [(\d+[A-Z]+)] and [([A-Z]+-\d+)] *)
Definition case_patterns : list Re.regex :=
  [Re.Grp 1 (Re.cat [Re.Plus digit; Re.Plus upper_letter]);
   Re.Grp 1 (Re.cat [Re.Plus upper_letter; Re.Chr "-"; Re.Plus digit])].

(** [(T\d+\.\d+)] and [(T\d+)] *)
Definition nh_patterns : list Re.regex :=
  [Re.Grp 1 (Re.cat [Re.Chr "T"; Re.Plus digit; Re.Chr "."; Re.Plus digit]);
   Re.Grp 1 (Re.cat [Re.Chr "T"; Re.Plus digit])].

(** [for pattern in ps: m = re.search(pattern, text); if m: model = m.group(1); break] *)
Fixpoint first_model (ps : list Re.regex) (t : text) (model : text) : text :=
  match ps with
  | [] => model
  | pattern :: ps' =>
      match Re.search pattern t with
      | Some m => grp 1 (Re.groups m)
      | None => first_model ps' t model
      end
  end.

Definition model_for_brand (detected : text) (t : text) : text :=
  if contains (str "John Deere") detected then first_model jd_patterns t unknown_model
  else if contains (str "Case") detected then first_model case_patterns t unknown_model
  else if contains (str "New Holland") detected then first_model nh_patterns t unknown_model
  else unknown_model.

Definition extract_equipment_brand_and_model (t : text) (make_hint : option text)
    : text * text :=
  let detected := brand_from_text t (brand_from_hint make_hint) in
  let detected := normalize_brand detected in
  (detected, model_for_brand detected t).

(** ** Field Extractor: auction house *)

Definition upper_space_amp : Re.regex :=
  Re.Cls (fun c => is_upper c || is_space c || is_char "&" c).

(** [([A-Z][A-Z\s&]+AUCTION)], [([A-Z][A-Z\s&]+AUCTIONEERS)] and
    [AUCTION[S]?:\s*([A-Za-z\s&]+)] *)
Definition auction_patterns : list Re.regex :=
  [Re.Grp 1 (Re.cat [upper_letter; Re.Plus upper_space_amp; Re.Lit (str "AUCTION")]);
   Re.Grp 1 (Re.cat [upper_letter; Re.Plus upper_space_amp; Re.Lit (str "AUCTIONEERS")]);
   Re.cat [Re.Lit (str "AUCTION"); Re.Opt (Re.Chr "S"); Re.Chr ":";
           Re.Star (Re.Cls is_space);
           Re.Grp 1 (Re.Plus (Re.Cls (fun c => is_alpha c || is_space c
                                               || is_char "&" c)))]].

Definition capitalized : Re.regex :=
  Re.Seq upper_letter (Re.Plus (Re.Cls is_lower)).

(** [(?:in|at)\s+([A-Z][a-z]+(?:\s+[A-Z][a-z]+)?),\s+([A-Z]{2})] *)
Definition location_pattern : Re.regex :=
  Re.cat [Re.Alt (Re.Lit (str "in")) (Re.Lit (str "at"));
          Re.Plus (Re.Cls is_space);
          Re.Grp 1 (Re.Seq capitalized
                      (Re.Opt (Re.Seq (Re.Plus (Re.Cls is_space)) capitalized)));
          Re.Chr ","; Re.Plus (Re.Cls is_space);
          Re.Grp 2 (Re.Seq upper_letter upper_letter)].

Fixpoint first_auction (ps : list Re.regex) (t : text) : option text :=
  match ps with
  | [] => None
  | pattern :: ps' =>
      match Re.search pattern t with
      | Some m => Some (strip (grp 1 (Re.groups m)))
      | None => first_auction ps' t
      end
  end.

Definition extract_auction_company (t : text) : text :=
  match first_auction auction_patterns t with
  | Some name => name
  | None =>
      match Re.search location_pattern t with
      | Some m => grp 1 (Re.groups m) ++ str ", " ++ grp 2 (Re.groups m)
      | None => str "Unknown Auction"
      end
  end.

(** ** Calendar dates and instants *)

Open Scope Z_scope.

Definition is_leap (y : Z) : bool :=
  (y mod 4 =? 0) && (negb (y mod 100 =? 0) || (y mod 400 =? 0)).

Definition days_in_month (y m : Z) : Z :=
  if m =? 2 then (if is_leap y then 29 else 28)
  else if (m =? 4) || (m =? 6) || (m =? 9) || (m =? 11) then 30
  else 31.

Definition days_before_year (y : Z) : Z :=
  let p := y - 1 in p * 365 + p / 4 - p / 100 + p / 400.

Fixpoint days_before_month_from (y : Z) (k : nat) (m : Z) : Z :=
  match k with
  | O => 0
  | S k' => days_before_month_from y k' (m - 1) + days_in_month y (m - 1)
  end.

Definition days_before_month (y m : Z) : Z :=
  days_before_month_from y (Z.to_nat (m - 1)) m.

(** [date(y, m, d).toordinal()]: 0001-01-01 is day 1. *)
Definition ymd2ord (y m d : Z) : Z :=
  days_before_year y + days_before_month y m + d.

(** [date.fromordinal(n)] as (year, month, day), following [_ord2ymd]. *)
Definition ord2ymd (n : Z) : Z * Z * Z :=
  let n := n - 1 in
  let n400 := n / 146097 in
  let n := n mod 146097 in
  let n100 := n / 36524 in
  let n := n mod 36524 in
  let n4 := n / 1461 in
  let n := n mod 1461 in
  let n1 := n / 365 in
  let n := n mod 365 in
  let year := n400 * 400 + 1 + n100 * 100 + n4 * 4 + n1 in
  if (n1 =? 4) || (n100 =? 4) then (year - 1, 12, 31)
  else
    let month := Z.shiftr (n + 50) 5 in
    let preceding := days_before_month year month in
    if n <? preceding
    then (year, month - 1, n - (preceding - days_in_month year (month - 1)) + 1)
    else (year, month, n - preceding + 1).

(** One day in microseconds; an instant [t] lies on day [t / day_us]. *)
Definition day_us : Z := 86400000000.

(** [timedelta(days=k)] *)
Definition timedelta_days (k : Z) : Z := k * day_us.

(** The [%Y-%m-%d] directive pattern of [strptime]:
    four digits, [1[0-2]|0[1-9]|[1-9]], [3[01]|[12]\d|0[1-9]|[1-9]| [1-9]]. *)
Definition re_strptime_ymd : Re.regex :=
  let d19 := Re.Cls (in_range 49 57) in
  Re.cat [Re.Grp 1 digit_4; Re.Chr "-";
          Re.Grp 2 (Re.alts [Re.Seq (Re.Chr "1") (Re.Cls (in_range 48 50));
                             Re.Seq (Re.Chr "0") d19; d19]);
          Re.Chr "-";
          Re.Grp 3 (Re.alts [Re.Seq (Re.Chr "3") (Re.Cls (in_range 48 49));
                             Re.Seq (Re.Cls (in_range 49 50)) digit;
                             Re.Seq (Re.Chr "0") d19; d19;
                             Re.Seq (Re.Chr " ") d19])].

(** [datetime.strptime(s, "%Y-%m-%d")]: the instant at midnight of that
    day, or [None] for [ValueError] (no match, text left over after the
    match, year 0, or a day the month does not have). *)
Definition strptime_ymd (s : text) : option Z :=
  match Re.match_here re_strptime_ymd s with
  | Some ([], c) =>
      let y := digits_value (grp 1 c) in
      let m := digits_value (grp 2 c) in
      let d := digits_value (lstrip (grp 3 c)) in
      if (1 <=? y) && (d <=? days_in_month y m)
      then Some (ymd2ord y m d * day_us)
      else None
  | _ => None
  end.

(** [t.strftime("%Y-%m-%d")] for an instant whose year has four digits. *)
Definition strftime_ymd (t : Z) : text :=
  let '(y, m, d) := ord2ymd (t / day_us) in
  iso (decimal y) m d.

Close Scope Z_scope.

(** ** Sale Record Builder *)

Record item : Type := Item {
  sale_id : text;
  item_name : text;
  auction_company : text;
  price : Q;
  sale_date : text;
  item_text : text
}.

Definition Qlt_bool (a b : Q) : bool := negb (Qle_bool b a).

(** [sum(l)] *)
Definition Qsum (l : list Q) : Q := fold_left Qplus l 0.

Definition Qlen (A : Type) (l : list A) : Q := inject_Z (Z.of_nat (length l)).

(** [sum(all_prices) / len(all_prices) if all_prices else 0.0] *)
Definition average_price (all_prices : list Q) : Q :=
  match all_prices with
  | [] => 0
  | _ => Qsum all_prices / Qlen all_prices
  end.

(** The date the caller falls back on: thirty days before [now]. *)
Definition default_date (now : Z) : text :=
  strftime_ymd (now - timedelta_days 30)%Z.

(** [if not extracted_date:] holds for [None] and for the empty text. *)
Definition date_or_default (now : Z) (extracted : option text) : text :=
  match extracted with
  | Some ((_ :: _) as d) => d
  | _ => default_date now
  end.

(** One turn of the loop over the search results, from the content of a
    result to the record appended, or [None] when the loop [continue]s. *)
Definition build_item (now : Z) (make : option text) (content : text)
    : option item :=
  match content with
  | [] => None
  | _ =>
      let clean_content := clean_and_normalize_text content in
      let truncated_content := firstn 1000 clean_content in
      let all_prices := extract_prices clean_content in
      let extracted_date := date_or_default now (extract_date clean_content) in
      let '(brand, model_name) :=
        extract_equipment_brand_and_model clean_content make in
      let auction := extract_auction_company clean_content in
      let avg_price := average_price all_prices in
      if Qlt_bool avg_price 1000 then None
      else
        let name := brand ++ str " " ++ model_name in
        Some (Item (name ++ str " - " ++ auction) name auction avg_price
                   extracted_date truncated_content)
  end.

Definition build_step (now : Z) (make : option text)
    (serializable_results : list item) (content : text) : list item :=
  match build_item now make content with
  | Some it => serializable_results ++ [it]
  | None => serializable_results
  end.

Definition build_items (now : Z) (make : option text) (contents : list text)
    : list item :=
  fold_left (build_step now make) contents [].

(** ** Recency Filter *)

Definition cutoff_90_days (now : Z) : Z := (now - timedelta_days 90)%Z.
Definition cutoff_180_days (now : Z) : Z := (now - timedelta_days 180)%Z.

(** One turn of the bucketing loop on the pair
    ([recent_90_day_results], [recent_180_day_results]). *)
Definition bucket_step (now : Z) (acc : list item * list item) (it : item)
    : list item * list item :=
  let '(r90, r180) := acc in
  match strptime_ymd (sale_date it) with
  | Some d =>
      if (cutoff_90_days now <=? d)%Z then (r90 ++ [it], r180)
      else if (cutoff_180_days now <=? d)%Z then (r90, r180 ++ [it])
      else (r90, r180)
  | None => (r90, r180 ++ [it])
  end.

Definition recency_filter (now : Z) (serializable_results : list item)
    : list item :=
  let '(r90, r180) :=
    fold_left (bucket_step now) serializable_results ([], []) in
  let recent_results := if length r90 <? 3 then r90 ++ r180 else r90 in
  if length recent_results <? 3 then serializable_results else recent_results.

(** ** Outlier Remover *)

Fixpoint insert_sorted (x : Q) (l : list Q) : list Q :=
  match l with
  | [] => [x]
  | y :: l' => if Qle_bool x y then x :: l else y :: insert_sorted x l'
  end.

Definition sort_prices (l : list Q) : list Q := fold_right insert_sorted [] l.

(** [np.percentile(prices, q)], linear interpolation between the two
    closest ranks. *)
Definition percentile (prices : list Q) (q : Q) : Q :=
  let sorted := sort_prices prices in
  let n := Z.of_nat (length prices) in
  let virtual_index := q / 100 * inject_Z (n - 1) in
  let previous := Qfloor virtual_index in
  let next := Z.min (previous + 1) (n - 1) in
  let gamma := virtual_index - inject_Z previous in
  let a := nth (Z.to_nat previous) sorted 0 in
  let b := nth (Z.to_nat next) sorted 0 in
  a + (b - a) * gamma.

Definition within_bounds (lower_bound upper_bound : Q) (it : item) : bool :=
  Qle_bool lower_bound (price it) && Qle_bool (price it) upper_bound.

Definition remove_outliers (recent_results : list item) : list item :=
  if 5 <=? length recent_results then
    let prices := map price recent_results in
    let q1 := percentile prices 25 in
    let q3 := percentile prices 75 in
    let iqr := q3 - q1 in
    let lower_bound := q1 - 1.5 * iqr in
    let upper_bound := q3 + 1.5 * iqr in
    let filtered_results :=
      filter (within_bounds lower_bound upper_bound) recent_results in
    let removed_count := (length recent_results - length filtered_results)%nat in
    if 0 <? removed_count then
      if 3 <=? length filtered_results then filtered_results
      else recent_results
    else recent_results
  else recent_results.

(** ** The retrieval pipeline *)

(** [search_with_rag] after the call to the hosted search: [results] is
    the content of each result in order, or [None] when anything in the
    [try] block raised, in which case the function returns the empty list. *)
Definition search_with_rag (now : Z) (make : option text)
    (results : option (list text)) : list item :=
  match results with
  | None => []
  | Some contents =>
      remove_outliers (recency_filter now (build_items now make contents))
  end.

(** ** Valuation: the offline branch of the valuator *)

Inductive confidence : Type := high | medium | low.

(** What a call does: it returns a value or raises the named exception. *)
Inductive outcome (A : Type) : Type :=
| Returns : A -> outcome A
| Raises : text -> outcome A.

Arguments Raises {A} _.

(** A comparable sale as the valuator reads it: a dictionary whose
    ["price"] key may be absent. *)
Record comp : Type := Comp {
  comp_sale_id : text;
  comp_price : option Q;
  comp_sale_date : text
}.

Definition comp_of_item (it : item) : comp :=
  Comp (sale_id it) (Some (price it)) (sale_date it).

Module Valuator.

Record valuation : Type := Valuation {
  fmv : Q;
  confidence_level : confidence;
  adjustments : Q * Q * Q;
  top3 : list comp;
  explanation : text
}.

(** [c.get("price", 0)] *)
Definition price_of (c : comp) : Q :=
  match comp_price c with
  | Some p => p
  | None => 0
  end.

(** [statistics.mean] *)
Definition mean (prices : list Q) : Q := Qsum prices / Qlen prices.

(** Rounding to the nearest integer, a tie going to the even one. *)
Definition round_half_even (x : Q) : Z :=
  let f := Qfloor x in
  let r := x - inject_Z f in
  if Qlt_bool r (1 # 2) then f
  else if Qlt_bool (1 # 2) r then (f + 1)%Z
  else if Z.even f then f else (f + 1)%Z.

(** [round(x, ndigits)] for [ndigits >= 0] *)
Definition round (x : Q) (ndigits : nat) : Q :=
  let scale := inject_Z (10 ^ Z.of_nat ndigits) in
  inject_Z (round_half_even (x * scale)) / scale.

(** [acall] with [USE_DUMMY] set, on the list under ["comps"]. *)
Definition acall (comps : list comp) : outcome valuation :=
  let prices := map price_of comps in
  let fmv := match prices with [] => 0 | _ => round (mean prices) 2 end in
  let conf := if 5 <=? length prices then high
              else if 3 <=? length prices then medium
              else low in
  Returns (Valuation fmv conf (0, 0, 0) (firstn 3 comps)
             (str "Dummy valuation using sample data")).

End Valuator.

(** [run_chain] up to the formatter, which only renames the fields: the
    comparable sales of the retriever are handed to the valuator. *)
Definition run_chain (now : Z) (make : option text)
    (results : option (list text)) : outcome Valuator.valuation :=
  Valuator.acall (map comp_of_item (search_with_rag now make results)).

(** ** Notions the statements below refer to *)

(** The form [YYYY-MM-DD]: four digits, a dash, two digits, a dash, two
    digits. *)
Definition iso_shape (d : text) : bool :=
  match d with
  | [y1; y2; y3; y4; h1; m1; m2; h2; d1; d2] =>
      forallb is_digit [y1; y2; y3; y4; m1; m2; d1; d2]
      && is_char "-" h1 && is_char "-" h2
  | _ => false
  end.

(** A text names a date of the calendar when [strptime] accepts it. *)
Definition valid_calendar_date (d : text) : bool :=
  match strptime_ymd d with
  | Some _ => true
  | None => false
  end.

(** A captured day or month number as [:02d] prints it. *)
Definition pad2 (g : text) : text :=
  match g with
  | [a] => ["0"%char; a]
  | _ => g
  end.

Definition digit_chars : text := str "0123456789".

(** What [\d{1,2}] captures. *)
Definition one_or_two_digits (g : text) : Prop :=
  (exists a, g = [a] /\ is_digit a = true) \/
  (exists a b, g = [a; b] /\ is_digit a = true /\ is_digit b = true).

Definition four_digits (g : text) : Prop :=
  length g = 4%nat /\ forallb is_digit g = true.

Definition two_digit_text (x : text) : Prop :=
  exists a b, x = [a; b] /\ is_digit a = true /\ is_digit b = true.

(** A formatter succeeds on the groups [c] with a text of the ISO form. *)
Definition formats_well (fmt : formatter) (c : Re.captures) : Prop :=
  exists d, fmt c = Some d /\ iso_shape d = true.

(** The prices one pattern contributes: each match parsed, kept when it
    lies in [1000, 1000000]. *)
Definition prices_of (ms : list text) : list Q :=
  flat_map (fun m => match float_of_text (remove_commas m) with
                     | Some price => if reasonable_price price then [price] else []
                     | None => []
                     end) ms.

(** Each match of a pattern with the offset in the text where it starts. *)
Fixpoint with_offsets (pos : nat) (fs : list Re.found) : list (nat * text) :=
  match fs with
  | [] => []
  | f :: fs' =>
      let start := (pos + length (Re.before f))%nat in
      (start, grp 1 (Re.groups f))
        :: with_offsets (start + length (Re.matched f))%nat fs'
  end.

Fixpoint insert_by_offset (x : nat * text) (l : list (nat * text))
    : list (nat * text) :=
  match l with
  | [] => [x]
  | y :: l' => if fst x <=? fst y then x :: l else y :: insert_by_offset x l'
  end.

(** Price extraction as the specification words it: the matches of the
    three patterns taken together, listed where they appear in the text. *)
Definition extract_prices_in_text_order (t : text) : list Q :=
  let all :=
    flat_map (fun pattern => with_offsets 0 (Re.matches_of pattern t))
             price_patterns in
  prices_of (map snd (fold_right insert_by_offset [] all)).

(** The two recency buckets: a record is within 90 days when its date
    parses and is not before the 90-day cutoff; it is in the 90-to-180-day
    bucket when its date parses and lies between the two cutoffs, or does
    not parse at all. *)
Definition within90 (now : Z) (it : item) : bool :=
  match strptime_ymd (sale_date it) with
  | Some d => (cutoff_90_days now <=? d)%Z
  | None => false
  end.

Definition within180 (now : Z) (it : item) : bool :=
  match strptime_ymd (sale_date it) with
  | Some d => negb (cutoff_90_days now <=? d)%Z && (cutoff_180_days now <=? d)%Z
  | None => true
  end.

(** The interval [Q1 - 1.5 IQR, Q3 + 1.5 IQR] of a list of prices. *)
Definition outlier_bounds (prices : list Q) : Q * Q :=
  let q1 := percentile prices 25 in
  let q3 := percentile prices 75 in
  (q1 - 1.5 * (q3 - q1), q3 + 1.5 * (q3 - q1)).

Definition inside (bounds : Q * Q) (it : item) : bool :=
  within_bounds (fst bounds) (snd bounds) it.

Definition InsufficientDataError : text := str "InsufficientDataError".

(** What the valuator returns when it is given no comparable sale. *)
Definition zero_valuation : Valuator.valuation :=
  Valuator.Valuation 0 low (0, 0, 0) []
    (str "Dummy valuation using sample data").

(** The sample variance, with divisor n - 1. *)
Definition sample_variance (xs : list Q) : Q :=
  let m := Valuator.mean xs in
  Qsum (map (fun x => (x - m) * (x - m)) xs) / (Qlen xs - 1).

(** [stdev / mean < bound] for a sample of positive mean, compared through
    the squares of both sides. *)
Definition relative_stdev_below (xs : list Q) (bound : Q) : bool :=
  Qlt_bool (sample_variance xs)
           ((bound * Valuator.mean xs) * (bound * Valuator.mean xs)).

(** The confidence label as the specification words it. *)
Definition spec_confidence (xs : list Q) : confidence :=
  if (25 <=? length xs) && relative_stdev_below xs 0.12 then high
  else if 10 <=? length xs then medium
  else low.

Definition multiple_of_100 (q : Q) : Prop :=
  exists k : Z, q == inject_Z (100 * k).

Definition example_comp (p : Q) : comp :=
  Comp (str "John Deere 8370R - Unknown Auction") (Some p) (str "2026-10-01").

Definition example_item (p : Q) : item :=
  Item (str "John Deere 8370R - Unknown Auction") (str "John Deere 8370R")
       (str "Unknown Auction") p (str "2026-10-01") (str "JOHN DEERE 8370R").

Definition example_items : list item :=
  map example_item [150000; 155000; 160000; 152000; 900000; 158000].

(** Search results used in the worked examples: two recent sales, an empty
    result, two passages without a usable price, a sale with an impossible
    date and two old sales. *)
Definition example_contents : list text :=
  map str
    ["2019 JOHN DEERE 8370R sold for $ 210,000 on 10/01/2026 by BIG IRON AUCTION";
     "JOHN DEERE 8370R $200,000 - $220,500.00 at Omaha, NE";
     "";
     "no price here";
     "lot 500 dollars";
     "JD 8370RT 215000 USD 13/45/2026";
     "8370R $100 02/01/2020";
     "8370R $900,000 02/01/2020"]%string.

(** What the examples show of a record: identifier, price, sale date. *)
Definition summary (it : item) : string * Q * string :=
  (string_of_list_ascii (sale_id it), Qred (price it),
   string_of_list_ascii (sale_date it)).

(** The brands that have model patterns. *)
Definition brands_with_model_patterns : list text :=
  map str ["John Deere"; "Case"; "New Holland"]%string.

(** An instant used in the examples: 4 November 2026, 15:00. *)
Definition example_now : Z := (ymd2ord 2026 11 4 * day_us + 15 * 3600000000)%Z.

(** ** The offline branch of the formatter and the whole chain *)

Module Formatter.

(** One entry of ["comparable_sales"]; [c.get(key)] is [None] for a key
    the comparable sale does not have, as is the case of
    ["distance_miles"] for the records of the retriever. *)
Record comparable_sale : Type := ComparableSale {
  cs_sale_id : option text;
  cs_price : option Q;
  cs_sale_date : option text;
  cs_distance_miles : option Q
}.

Record response : Type := Response {
  fair_market_value : Q;
  response_confidence : confidence;
  comparable_sales : list comparable_sale;
  response_adjustments : Q * Q * Q;
  response_explanation : text
}.

Definition comparable_of (c : comp) : comparable_sale :=
  ComparableSale (Some (comp_sale_id c)) (comp_price c)
                 (Some (comp_sale_date c)) None.

(** [acall] with [USE_DUMMY] set, on the dictionary the valuator returned. *)
Definition acall (data : Valuator.valuation) : response :=
  Response (Valuator.fmv data) (Valuator.confidence_level data)
           (map comparable_of (Valuator.top3 data))
           (Valuator.adjustments data) (Valuator.explanation data).

End Formatter.


(** A price the extractor accepts. *)
Definition price_in_range (p : Q) : Prop := 1000 <= p /\ p <= 1000000.

(** The values the brand of a record can take. *)
Definition possible_brands : list text :=
  map str ["John Deere"; "Case"; "New Holland"; "Kubota"; "Massey Ferguson";
           "AGCO"; "Fendt"; "FENDT"; "Claas"; "CLAAS"; "DEUTZ-FAHR";
           "Deutz-Fahr"; "Caterpillar"; "CAT"; "Unknown"]%string.

(** A hint matches a roster entry when, both upper-cased, one is a
    substring of the other. *)
Definition hint_matches (hint brand : text) : bool :=
  contains (upper brand) (upper hint) || contains (upper hint) (upper brand).

(** The date patterns without the fourth entry. *)
Definition date_patterns_without_dmy : list (Re.regex * formatter) :=
  [ (re_mdy_slash, fmt_numeric 3 1 2);
    (re_mdy_dash, fmt_numeric 3 1 2);
    (re_ymd_slash, fmt_numeric 1 2 3);
    (re_month_name, fmt_month_name) ].

(** All the model patterns, of the three brands that have some. *)
Definition model_patterns : list Re.regex :=
  jd_patterns ++ case_patterns ++ nh_patterns.

(** Day [n] survives printing with [strftime] and reading back with
    [strptime]. *)
Definition day_round_trips (n : Z) : bool :=
  match strptime_ymd (strftime_ymd (n * day_us)) with
  | Some t => (t =? n * day_us)%Z
  | None => false
  end.

(** [all_days k start]: the [k] days from [start] on all round-trip. *)
Fixpoint all_days (k : nat) (start : Z) : bool :=
  match k with
  | O => true
  | S k' => day_round_trips start && all_days k' (start + 1)
  end.

(** 1 January 2000 and the number of days from it to 1 January 2100. *)
Definition first_day_2000 : Z := ymd2ord 2000 1 1.
Definition days_2000_to_2100 : nat := Z.to_nat 36525.

(** Instants from 1 March 2000 up to 1 January 2100. *)
Definition in_this_century (now : Z) : Prop :=
  (ymd2ord 2000 3 1 * day_us <= now < ymd2ord 2100 1 1 * day_us)%Z.

(** The loop the matcher runs for [Star r], with its fuel made explicit. *)
Definition star_loop (R : Type) (r : Re.regex)
    (k : text -> Re.captures -> option R)
    : nat -> text -> Re.captures -> option R :=
  fix star (fuel : nat) (s : text) (caps : Re.captures) : option R :=
    match fuel with
    | O => k s caps
    | S fuel' =>
        match Re.run r s caps
                (fun s1 c1 =>
                   if length s1 <? length s then star fuel' s1 c1
                   else None) with
        | Some x => Some x
        | None => k s caps
        end
    end.

(** The three auction-house patterns by name, and the list without the
    second. *)
Definition re_auction_name : Re.regex :=
  Re.Grp 1 (Re.cat [upper_letter; Re.Plus upper_space_amp;
                    Re.Lit (str "AUCTION")]).

Definition re_auctioneers_name : Re.regex :=
  Re.Grp 1 (Re.cat [upper_letter; Re.Plus upper_space_amp;
                    Re.Lit (str "AUCTIONEERS")]).

Definition re_auction_colon : Re.regex :=
  Re.cat [Re.Lit (str "AUCTION"); Re.Opt (Re.Chr "S"); Re.Chr ":";
          Re.Star (Re.Cls is_space);
          Re.Grp 1 (Re.Plus (Re.Cls (fun c => is_alpha c || is_space c
                                              || is_char "&" c)))].

Definition auction_patterns_without_auctioneers : list Re.regex :=
  [re_auction_name; re_auction_colon].

(** The characters the normalizer leaves alone: everything but white
    space and commas. *)
Definition kept (c : ascii) : bool := negb (is_space c) && negb (is_char "," c).

(** A text cut into the matches of a scan: each match with the text before
    it, then the text after the last one. *)
Inductive segments (r : Re.regex) : text -> list Re.found -> Prop :=
| seg_nil : forall s, segments r s []
| seg_cons : forall s f fs,
    s = Re.before f ++ Re.matched f ++ Re.after f ->
    Re.matches r (Re.matched f) [] (Re.groups f) ->
    segments r (Re.after f) fs ->
    segments r s (f :: fs).

(** * Properties *)

(** ** The matcher is sound for the declarative semantics *)

Lemma firstn_consumed (w s : text) :
  firstn (length (w ++ s) - length s) (w ++ s) = w.
Proof.
  rewrite length_app, Nat.add_sub.
  rewrite firstn_app, Nat.sub_diag, firstn_all. simpl. apply app_nil_r.
Qed.

Lemma run_sound (R : Type) (r : Re.regex) :
  forall (s : text) (caps : Re.captures) (k : text -> Re.captures -> option R) x,
    Re.run r s caps k = Some x ->
    exists w s' caps',
      s = w ++ s' /\ Re.matches r w caps caps' /\ k s' caps' = Some x.
Proof.
  induction r as [|p|r1 IH1 r2 IH2|r1 IH1 r2 IH2|r1 IH1|n r1 IH1];
    intros s caps k x H; simpl in H.
  - exists [], s, caps. repeat split; auto. constructor.
  - destruct s as [|a s']; [discriminate|].
    destruct (p a) eqn:Hp; [|discriminate].
    exists [a], s', caps. repeat split; auto. now constructor.
  - apply IH1 in H as (w1 & s1 & c1 & -> & M1 & H).
    apply IH2 in H as (w2 & s2 & c2 & -> & M2 & H).
    exists (w1 ++ w2), s2, c2. rewrite app_assoc. repeat split; auto.
    econstructor; eauto.
  - destruct (Re.run r1 s caps k) eqn:E.
    + inversion H; subst. apply IH1 in E as (w & s' & c' & -> & M & E).
      exists w, s', c'. repeat split; auto. now apply Re.M_AltL.
    + apply IH2 in H as (w & s' & c' & -> & M & E').
      exists w, s', c'. repeat split; auto. now apply Re.M_AltR.
  - revert H. generalize (length s) at 1. intros fuel. revert s caps x.
    induction fuel as [|fuel IHf]; intros s caps x H.
    + exists [], s, caps. repeat split; auto. constructor.
    + match type of H with
      | match ?e with _ => _ end = _ => destruct e eqn:E
      end.
      * inversion H; subst. apply IH1 in E as (w1 & s1 & c1 & -> & M1 & E).
        destruct (length s1 <? length (w1 ++ s1)); [|discriminate].
        apply IHf in E as (w2 & s2 & c2 & -> & M2 & E).
        exists (w1 ++ w2), s2, c2. rewrite app_assoc. repeat split; auto.
        econstructor; eauto.
      * exists [], s, caps. repeat split; auto. constructor.
  - apply IH1 in H as (w & s' & c' & -> & M & H).
    rewrite firstn_consumed in H.
    exists w, s', ((n, w) :: c'). repeat split; auto. now constructor.
Qed.

Lemma match_here_sound (r : Re.regex) (s s' : text) (c : Re.captures) :
  Re.match_here r s = Some (s', c) ->
  exists w, s = w ++ s' /\ Re.matches r w [] c.
Proof.
  unfold Re.match_here. intros H.
  apply run_sound in H as (w & s1 & c1 & -> & M & H).
  inversion H; subst. eauto.
Qed.

Lemma search_acc_eq (r : Re.regex) (skipped s : text) :
  Re.search_acc r skipped s =
  match Re.match_here r s with
  | Some (s', c) =>
      Some (Re.Found (rev skipped) (firstn (length s - length s') s) s' c)
  | None =>
      match s with
      | [] => None
      | c :: s' => Re.search_acc r (c :: skipped) s'
      end
  end.
Proof. destruct s; reflexivity. Qed.

Lemma search_acc_sound (r : Re.regex) (s : text) :
  forall skipped f,
    Re.search_acc r skipped s = Some f ->
    Re.matches r (Re.matched f) [] (Re.groups f) /\
    rev skipped ++ s = Re.before f ++ Re.matched f ++ Re.after f.
Proof.
  induction s as [|a s IH]; intros skipped f H; rewrite search_acc_eq in H;
    destruct (Re.match_here r _) as [[s' c]|] eqn:E; try discriminate.
  - apply match_here_sound in E as (w & E & M).
    rewrite E, firstn_consumed in H. inversion H; subst; simpl. now rewrite E.
  - apply match_here_sound in E as (w & E & M).
    rewrite E, firstn_consumed in H. inversion H; subst; simpl. now rewrite E.
  - apply IH in H as (M & E'). split; auto.
    rewrite <- E'. simpl. now rewrite <- app_assoc.
Qed.

Lemma search_sound (r : Re.regex) (s : text) (f : Re.found) :
  Re.search r s = Some f ->
  Re.matches r (Re.matched f) [] (Re.groups f) /\
  s = Re.before f ++ Re.matched f ++ Re.after f.
Proof. intros H. now apply search_acc_sound in H. Qed.

(** ** Groups of the date patterns *)

Lemma matches_no_group (r : Re.regex) (w : text) (c c' : Re.captures) :
  Re.matches r w c c' -> Re.has_group r = false -> c' = c.
Proof.
  induction 1 as [| |r1 r2 w1 w2 c c1 c2 _ IH1 _ IH2| | |
                  |r w1 w2 c c1 c2 _ IH1 _ IH2|];
    simpl; intros Hg; auto;
    try (apply orb_false_iff in Hg as [Hg1 Hg2]); try discriminate;
    eauto using eq_trans.
Qed.

Lemma is_digit_cases (a : ascii) : is_digit a = true -> In a digit_chars.
Proof.
  destruct a as [b0 b1 b2 b3 b4 b5 b6 b7].
  destruct b0, b1, b2, b3, b4, b5, b6, b7; vm_compute; intros H;
    try discriminate H; tauto.
Qed.

Lemma is_char_eq (a b : ascii) : is_char a b = true -> b = a.
Proof. unfold is_char. intros H. apply Ascii.eqb_eq in H. auto. Qed.

Ltac digit_cases H :=
  apply is_digit_cases in H; vm_compute in H;
  repeat (destruct H as [H|H]; [symmetry in H; subst|]); try contradiction.

Lemma one_digit (a : ascii) :
  is_digit a = true ->
  exists v, int_of_text [a] = Some v /\ format_02d v = pad2 [a].
Proof.
  intros Ha. digit_cases Ha; eexists; split; vm_compute; reflexivity.
Qed.

Lemma two_digits (a b : ascii) :
  is_digit a = true -> is_digit b = true ->
  exists v, int_of_text [a; b] = Some v /\ format_02d v = pad2 [a; b].
Proof.
  intros Ha Hb. digit_cases Ha; digit_cases Hb;
    eexists; split; vm_compute; reflexivity.
Qed.

Lemma int_of_digits (g : text) :
  one_or_two_digits g ->
  exists v, int_of_text g = Some v /\ format_02d v = pad2 g.
Proof.
  intros [(a & -> & Ha)|(a & b & -> & Ha & Hb)].
  - now apply one_digit.
  - now apply two_digits.
Qed.

Lemma pad2_shape (g : text) : one_or_two_digits g -> two_digit_text (pad2 g).
Proof.
  intros [(a & -> & Ha)|(a & b & -> & Ha & Hb)]; simpl;
    unfold two_digit_text; eauto 6.
Qed.

Lemma iso_has_shape (y : text) (mv dv : Z) :
  four_digits y ->
  two_digit_text (format_02d mv) -> two_digit_text (format_02d dv) ->
  iso_shape (iso y mv dv) = true.
Proof.
  intros [Hl Hy] (m1 & m2 & Em & Hm1 & Hm2) (d1 & d2 & Ed & Hd1 & Hd2).
  unfold iso. rewrite Em, Ed.
  destruct y as [|y1 [|y2 [|y3 [|y4 [|]]]]]; try discriminate Hl.
  simpl in Hy. repeat (apply andb_true_iff in Hy as [? Hy]).
  cbn [app str list_ascii_of_string iso_shape forallb].
  repeat match goal with
         | H : is_digit _ = true |- _ => rewrite H; clear H
         end.
  reflexivity.
Qed.

Ltac inv H := inversion H; subst; clear H.

Ltac inv_matches :=
  repeat match goal with
  | H : Re.matches Re.Eps _ _ _ |- _ => inv H
  | H : Re.matches (Re.Cls _) _ _ _ |- _ => inv H
  | H : Re.matches (Re.Seq _ _) _ _ _ |- _ => inv H
  | H : Re.matches (Re.Alt _ _) _ _ _ |- _ => inv H
  | H : Re.matches (Re.Grp _ _) _ _ _ |- _ => inv H
  | H : Re.matches (Re.Star _) _ _ _ |- _ =>
      apply matches_no_group in H; [subst|reflexivity]
  end.

Lemma digit_1_2_matches (w : text) (c c' : Re.captures) :
  Re.matches digit_1_2 w c c' -> c' = c /\ one_or_two_digits w.
Proof.
  unfold digit_1_2, digit, Re.Opt. intros H. inv_matches.
  - split; auto. right. simpl. eauto.
  - split; auto. left. simpl. eauto.
Qed.

Lemma digit_4_matches (w : text) (c c' : Re.captures) :
  Re.matches digit_4 w c c' -> c' = c /\ four_digits w.
Proof.
  unfold digit_4, digit, Re.cat. intros H. inv_matches.
  split; auto. split; auto. cbn [app forallb].
  repeat match goal with
         | H : is_digit _ = true |- _ => rewrite H; clear H
         end.
  reflexivity.
Qed.

Lemma fmt_numeric_ok (yi mi di : nat) (c : Re.captures) :
  four_digits (grp yi c) ->
  one_or_two_digits (grp mi c) -> one_or_two_digits (grp di c) ->
  formats_well (fmt_numeric yi mi di) c.
Proof.
  intros Hy Hm Hd. unfold formats_well, fmt_numeric.
  destruct (int_of_digits Hm) as (mv & -> & Em).
  destruct (int_of_digits Hd) as (dv & -> & Ed).
  eexists; split; [reflexivity|].
  apply iso_has_shape; auto; [rewrite Em|rewrite Ed]; now apply pad2_shape.
Qed.

Ltac inv_date_groups :=
  inv_matches;
  repeat match goal with
  | H : Re.matches digit_1_2 _ _ _ |- _ =>
      apply digit_1_2_matches in H as [-> ?]
  | H : Re.matches digit_4 _ _ _ |- _ =>
      apply digit_4_matches in H as [-> ?]
  end.

Lemma mdy_slash_groups (w : text) (c : Re.captures) :
  Re.matches re_mdy_slash w [] c ->
  one_or_two_digits (grp 1 c) /\ one_or_two_digits (grp 2 c)
  /\ four_digits (grp 3 c).
Proof.
  unfold re_mdy_slash, Re.cat, Re.Chr. intros H. inv_date_groups.
  cbn. auto.
Qed.

Lemma mdy_dash_groups (w : text) (c : Re.captures) :
  Re.matches re_mdy_dash w [] c ->
  one_or_two_digits (grp 1 c) /\ one_or_two_digits (grp 2 c)
  /\ four_digits (grp 3 c).
Proof.
  unfold re_mdy_dash, Re.cat, Re.Chr. intros H. inv_date_groups.
  cbn. auto.
Qed.

Lemma ymd_slash_groups (w : text) (c : Re.captures) :
  Re.matches re_ymd_slash w [] c ->
  four_digits (grp 1 c) /\ one_or_two_digits (grp 2 c)
  /\ one_or_two_digits (grp 3 c).
Proof.
  unfold re_ymd_slash, Re.cat, Re.Chr. intros H. inv_date_groups.
  cbn. auto.
Qed.

Lemma month_index (name : text) :
  In name month_names ->
  exists i, index_of name month_names = Some i
            /\ two_digit_text (format_02d (Z.of_nat i + 1)).
Proof.
  intros H. vm_compute in H.
  repeat (destruct H as [H|H]; [subst name|]); try contradiction;
    eexists; (split; [vm_compute; reflexivity|]);
    vm_compute; eexists; eexists; repeat split.
Qed.

Lemma month_name_groups (w : text) (c : Re.captures) :
  Re.matches re_month_name w [] c ->
  In (grp 1 c) month_names /\ one_or_two_digits (grp 2 c)
  /\ four_digits (grp 3 c).
Proof.
  unfold re_month_name, Re.cat, Re.Chr, Re.Plus.
  cbv [Re.alts map month_names str list_ascii_of_string Re.Lit Re.Chr].
  intros H. inv_date_groups;
    repeat match goal with
           | H : is_char _ _ = true |- _ => apply is_char_eq in H; subst
           end;
    cbn; tauto.
Qed.

Lemma fmt_month_name_ok (c : Re.captures) :
  In (grp 1 c) month_names -> one_or_two_digits (grp 2 c) ->
  four_digits (grp 3 c) ->
  formats_well fmt_month_name c.
Proof.
  intros Hn Hd Hy. unfold formats_well, fmt_month_name.
  destruct (month_index Hn) as (i & -> & Hi).
  destruct (int_of_digits Hd) as (dv & -> & Ed).
  eexists; split; [reflexivity|].
  apply iso_has_shape; auto. rewrite Ed. now apply pad2_shape.
Qed.

(** Whenever a date pattern matches, its formatter succeeds. *)
Lemma date_patterns_format (t : text) (pattern : Re.regex) (fmt : formatter)
    (m : Re.found) :
  In (pattern, fmt) date_patterns -> Re.search pattern t = Some m ->
  formats_well fmt (Re.groups m).
Proof.
  intros Hin Hs. apply search_sound in Hs as [M _].
  unfold date_patterns in Hin. simpl in Hin.
  destruct Hin as [E|[E|[E|[E|[E|[]]]]]]; inversion E; subst; clear E.
  - apply mdy_slash_groups in M as (H1 & H2 & H3). now apply fmt_numeric_ok.
  - apply mdy_dash_groups in M as (H1 & H2 & H3). now apply fmt_numeric_ok.
  - apply ymd_slash_groups in M as (H1 & H2 & H3). now apply fmt_numeric_ok.
  - apply mdy_slash_groups in M as (H1 & H2 & H3). now apply fmt_numeric_ok.
  - apply month_name_groups in M as (H1 & H2 & H3).
    now apply fmt_month_name_ok.
Qed.

Lemma first_date_spec (t : text) (ps : list (Re.regex * formatter)) :
  (forall pattern fmt m,
      In (pattern, fmt) ps -> Re.search pattern t = Some m ->
      formats_well fmt (Re.groups m)) ->
  match first_date ps t with
  | Some d =>
      iso_shape d = true /\
      exists earlier pattern fmt later m,
        ps = earlier ++ (pattern, fmt) :: later
        /\ Forall (fun pf => Re.search (fst pf) t = None) earlier
        /\ Re.search pattern t = Some m /\ fmt (Re.groups m) = Some d
  | None => Forall (fun pf => Re.search (fst pf) t = None) ps
  end.
Proof.
  induction ps as [|[pattern fmt] ps IH]; intros Hok; simpl.
  - constructor.
  - destruct (Re.search pattern t) as [m|] eqn:Es.
    + destruct (Hok pattern fmt m (or_introl eq_refl) Es) as (d & Ef & Hd).
      rewrite Ef. split; auto. exists [], pattern, fmt, ps, m. repeat split; auto.
    + assert (IH' := IH (fun p f m H => Hok p f m (or_intror H))).
      destruct (first_date ps t) as [d|].
      * destruct IH' as (Hd & earlier & p & f & later & m & -> & Hn & Hs & Hf).
        split; auto.
        exists ((pattern, fmt) :: earlier), p, f, later, m.
        repeat split; auto.
      * constructor; auto.
Qed.

(** ** Sale date (C9) *)

(** C9 on the code: the result need not be a date of the calendar.  On
    25/12/2023 the month-first entry matches and its formatter, which
    checks nothing, writes month 25; the day-first entry, whose formatter
    would give 2023-12-25 on the same match, is never tried.  Likewise
    13/45/2023 gives month 13 and day 45. *)
Theorem extract_date_returns_impossible_dates :
  extract_date (str "sold 25/12/2023") = Some (str "2023-25-12")
  /\ valid_calendar_date (str "2023-25-12") = false
  /\ (exists m,
        Re.search re_mdy_slash (str "sold 25/12/2023") = Some m
        /\ fmt_numeric 3 2 1 (Re.groups m) = Some (str "2023-12-25"))
  /\ valid_calendar_date (str "2023-12-25") = true
  /\ extract_date (str "13/45/2023") = Some (str "2023-13-45")
  /\ valid_calendar_date (str "2023-13-45") = false.
Proof.
  split; [vm_compute; reflexivity|].
  split; [vm_compute; reflexivity|].
  split; [eexists; split; vm_compute; reflexivity|].
  repeat split; vm_compute; reflexivity.
Qed.

(** ** Passage Normalizer (C7) *)

(** C7 does not hold of the code: the rewrite of a dollar amount removes one
    comma per pass, so an amount with two separators needs two passes. *)
Theorem normalize_twice_differs :
  clean_and_normalize_text (str "$1,000,000") = str "$1000,000"
  /\ clean_and_normalize_text (clean_and_normalize_text (str "$1,000,000"))
     = str "$1000000"
  /\ clean_and_normalize_text (clean_and_normalize_text (str "$1,000,000"))
     <> clean_and_normalize_text (str "$1,000,000").
Proof. repeat split; vm_compute; congruence. Qed.

(** ** Prices (C8) *)

Lemma price_loop (ms : list text) :
  forall acc, fold_left price_step ms acc = acc ++ prices_of ms.
Proof.
  induction ms as [|m ms IH]; intros acc; simpl.
  - now rewrite app_nil_r.
  - rewrite IH. unfold price_step.
    destruct (float_of_text (remove_commas m)) as [price|]; auto.
    destruct (reasonable_price price); auto.
    now rewrite <- app_assoc.
Qed.

Lemma prices_of_reasonable (ms : list text) :
  Forall (fun p => 1000 <= p /\ p <= 1000000) (prices_of ms).
Proof.
  unfold prices_of. apply Forall_flat_map. apply Forall_forall. intros m _.
  destruct (float_of_text (remove_commas m)) as [price|]; [|constructor].
  destruct (reasonable_price price) eqn:E; constructor; [|constructor].
  unfold reasonable_price in E. apply andb_true_iff in E as [E1 E2].
  split; now apply Qle_bool_iff.
Qed.

(** C8, as amended: for every normalized passage the extracted prices are
    the matches of the dollar-sign pattern, then those of the "dollars"
    pattern, then those of the "USD" pattern, each group in its order of
    appearance, duplicates kept, and each value lies in [1000, 1000000]. *)
Theorem extract_prices_grouped_by_pattern (t : text) :
  extract_prices t =
    prices_of (Re.findall re_price_dollar_sign t)
    ++ prices_of (Re.findall re_price_dollars_word t)
    ++ prices_of (Re.findall re_price_usd t)
  /\ Forall (fun p => 1000 <= p /\ p <= 1000000) (extract_prices t).
Proof.
  assert (E : extract_prices t =
              prices_of (Re.findall re_price_dollar_sign t)
              ++ prices_of (Re.findall re_price_dollars_word t)
              ++ prices_of (Re.findall re_price_usd t)).
  { unfold extract_prices, price_patterns. simpl.
    rewrite !price_loop. simpl. now rewrite <- app_assoc. }
  split; auto. rewrite E.
  repeat (apply Forall_app; split); apply prices_of_reasonable.
Qed.

(** C8 as stated fails: in this text the amount in words comes first, yet
    the price after the dollar sign is listed first. *)
Lemma extract_prices_not_in_text_order :
  extract_prices (str "5000 dollars and $2000") = [2000; 5000]
  /\ extract_prices_in_text_order (str "5000 dollars and $2000") = [5000; 2000]
  /\ extract_prices (str "5000 dollars and $2000")
     <> extract_prices_in_text_order (str "5000 dollars and $2000").
Proof. repeat split; vm_compute; congruence. Qed.

(** ** Brand and model (C10) *)

Lemma brand_from_hint_in_roster (make_hint : option text) :
  In (brand_from_hint make_hint) (unknown_brand :: brands).
Proof.
  unfold brand_from_hint. destruct make_hint as [[|a hint]|]; try (now left).
  destruct (find _ brands) as [brand|] eqn:E; [|now left].
  right. now apply find_some in E.
Qed.

Lemma detected_in_roster (t : text) (make_hint : option text) :
  In (brand_from_text t (brand_from_hint make_hint)) (unknown_brand :: brands).
Proof.
  unfold brand_from_text.
  destruct (text_eqb _ unknown_brand); [|apply brand_from_hint_in_roster].
  destruct (find _ brands) as [brand|] eqn:E.
  - right. now apply find_some in E.
  - apply brand_from_hint_in_roster.
Qed.

Lemma roster_normalized (d : text) :
  In d (unknown_brand :: brands) ->
  In (normalize_brand d) brands_with_model_patterns
  \/ (contains (str "John Deere") (normalize_brand d) = false
      /\ contains (str "Case") (normalize_brand d) = false
      /\ contains (str "New Holland") (normalize_brand d) = false).
Proof.
  intros H. vm_compute in H.
  repeat (destruct H as [H|H]; [subst d|]); try contradiction;
    vm_compute; auto 8.
Qed.

Lemma no_pattern_no_model (brand t : text) :
  contains (str "John Deere") brand = false ->
  contains (str "Case") brand = false ->
  contains (str "New Holland") brand = false ->
  model_for_brand brand t = unknown_model.
Proof. intros H1 H2 H3. unfold model_for_brand. now rewrite H1, H2, H3. Qed.

(** C10: for every passage text and brand hint, when the detected brand is
    none of John Deere, Case and New Holland, the model is "Unknown Model". *)
Theorem other_brands_unknown_model (t : text) (make_hint : option text) :
  ~ In (fst (extract_equipment_brand_and_model t make_hint))
       brands_with_model_patterns ->
  snd (extract_equipment_brand_and_model t make_hint) = unknown_model.
Proof.
  unfold extract_equipment_brand_and_model. simpl. intros Hnot.
  destruct (roster_normalized (detected_in_roster t make_hint))
    as [Hin|(H1 & H2 & H3)].
  - contradiction.
  - now apply no_pattern_no_model.
Qed.

Lemma other_brands_unknown_model_witness :
  fst (extract_equipment_brand_and_model
         (str "2018 Kubota M7 tractor, T7 loader") None) = str "Kubota"
  /\ snd (extract_equipment_brand_and_model
            (str "2018 Kubota M7 tractor, T7 loader") None) = unknown_model.
Proof.
  split; [vm_compute; reflexivity|].
  apply (@other_brands_unknown_model (str "2018 Kubota M7 tractor, T7 loader") None).
  vm_compute. intros [H|[H|[H|[]]]]; discriminate H.
Defined.

(** ** Sale Record Builder (C6) *)

Lemma build_item_price (now : Z) (make : option text) (content : text)
    (it : item) :
  build_item now make content = Some it -> 1000 <= price it.
Proof.
  unfold build_item. destruct content as [|a content]; [discriminate|].
  destruct (extract_equipment_brand_and_model _ make) as [brand model_name].
  destruct (Qlt_bool _ 1000) eqn:E; [discriminate|].
  intros H. inversion H; subst; simpl.
  unfold Qlt_bool in E. apply negb_false_iff in E. now apply Qle_bool_iff.
Qed.

Lemma build_item_dropped (now : Z) (make : option text) (content : text) :
  average_price (extract_prices (clean_and_normalize_text content)) < 1000 ->
  build_item now make content = None.
Proof.
  intros Hlt. unfold build_item. destruct content as [|a content]; auto.
  destruct (extract_equipment_brand_and_model _ make) as [brand model_name].
  destruct (Qlt_bool _ 1000) eqn:E; auto.
  unfold Qlt_bool in E. apply negb_false_iff in E.
  apply Qle_bool_iff in E. exfalso. apply (Qlt_not_le _ _ Hlt E).
Qed.

Lemma build_loop (now : Z) (make : option text) (contents : list text) :
  forall acc,
    Forall (fun it => 1000 <= price it) acc ->
    Forall (fun it => 1000 <= price it)
           (fold_left (build_step now make) contents acc).
Proof.
  induction contents as [|content contents IH]; intros acc Hacc; simpl; auto.
  apply IH. unfold build_step.
  destruct (build_item now make content) as [it|] eqn:E; auto.
  apply Forall_app. split; auto. constructor; [|constructor].
  now apply build_item_price in E.
Qed.

(** C6: every record the builder emits, and so every record handed to the
    Recency Filter, has a price of at least 1000; a passage whose price list
    is empty or whose mean price is below 1000 yields no record. *)
Theorem built_records_price_floor (now : Z) (make : option text)
    (contents : list text) :
  Forall (fun it => 1000 <= price it) (build_items now make contents)
  /\ (forall content,
        In content contents ->
        extract_prices (clean_and_normalize_text content) = []
        \/ average_price (extract_prices (clean_and_normalize_text content))
           < 1000 ->
        build_item now make content = None).
Proof.
  split.
  - apply build_loop. constructor.
  - intros content _ [E|Hlt]; apply build_item_dropped; auto.
    rewrite E. reflexivity.
Qed.

Lemma built_records_price_floor_witness :
  Forall (fun it => 1000 <= price it)
         (build_items example_now None
            [str "JOHN DEERE 8370R sold for $210,000"; str "lot 12, $500"])
  /\ build_item example_now None (str "lot 12, $500") = None.
Proof.
  destruct (built_records_price_floor example_now None
              [str "JOHN DEERE 8370R sold for $210,000"; str "lot 12, $500"])
    as [H1 H2].
  split; [exact H1|].
  apply H2; [right; left; reflexivity|left; vm_compute; reflexivity].
Defined.

(** ** Recency Filter (C4) *)

Lemma bucket_loop (now : Z) (items : list item) :
  forall r90 r180,
    fold_left (bucket_step now) items (r90, r180) =
    (r90 ++ filter (within90 now) items, r180 ++ filter (within180 now) items).
Proof.
  induction items as [|it items IH]; intros r90 r180; simpl.
  - now rewrite !app_nil_r.
  - unfold within90, within180.
    destruct (strptime_ymd (sale_date it)) as [d|]; simpl.
    + destruct (cutoff_90_days now <=? d)%Z; simpl.
      * rewrite IH. now rewrite <- app_assoc.
      * destruct (cutoff_180_days now <=? d)%Z; simpl; rewrite IH; auto.
        now rewrite <- app_assoc.
    + rewrite IH. now rewrite <- app_assoc.
Qed.

(** C4: for every list of records and every instant now, the Recency Filter
    returns the records within 90 days when there are at least 3 of them;
    otherwise those together with the 90-to-180-day records (which include
    the records whose date does not parse) when together they number at
    least 3; otherwise the whole input. *)
Theorem recency_filter_policy (now : Z) (items : list item) :
  recency_filter now items =
    let recent_90 := filter (within90 now) items in
    let recent_180 := filter (within180 now) items in
    if 3 <=? length recent_90 then recent_90
    else if 3 <=? length recent_90 + length recent_180
         then recent_90 ++ recent_180
         else items.
Proof.
  unfold recency_filter. rewrite bucket_loop.
  cbv beta iota zeta. cbn [app].
  rewrite !Nat.ltb_antisym.
  destruct (3 <=? length (filter (within90 now) items)) eqn:Ea;
    cbn [negb]; [now rewrite Ea|].
  rewrite length_app.
  now destruct (3 <=? _ + _).
Qed.

(** ** Outlier Remover (C5) *)

Lemma filter_all_kept (A : Type) (f : A -> bool) (l : list A) :
  length (filter f l) = length l -> filter f l = l.
Proof.
  induction l as [|a l IH]; simpl; auto.
  destruct (f a); simpl; intros H.
  - f_equal. apply IH. lia.
  - pose proof (filter_length_le f l). lia.
Qed.

Lemma remove_outliers_eq (items : list item) :
  remove_outliers items =
    if length items <? 5 then items
    else
      let kept := filter (inside (outlier_bounds (map price items))) items in
      if 3 <=? length kept then kept else items.
Proof.
  unfold remove_outliers, inside, outlier_bounds.
  cbv beta zeta. cbn [fst snd].
  rewrite (Nat.ltb_antisym 5 (length items)).
  destruct (5 <=? length items); cbn [negb]; [|reflexivity].
  match goal with
  | |- context [filter ?f items] =>
      pose proof (filter_length_le f items) as Hle;
      pose proof (@filter_all_kept _ f items) as Hall;
      set (kept := filter f items) in *
  end.
  destruct (0 <? length items - length kept) eqn:Er; [reflexivity|].
  apply Nat.ltb_ge in Er.
  rewrite Hall by lia. now destruct (3 <=? length items).
Qed.



(** ** Valuation (C1, C2, C3) *)

(** C1, as amended: for every input in which no sale record survives
    extraction and filtering, an empty passage list among them, the
    valuation returns a result instead of failing: fair-market value 0,
    confidence low, no adjustment and no supporting sale. *)
Theorem no_survivors_zero_valuation (now : Z) (make : option text)
    (results : option (list text)) :
  search_with_rag now make (Some []) = []
  /\ (search_with_rag now make results = [] ->
      run_chain now make results = Returns zero_valuation).
Proof.
  split; [reflexivity|].
  intros H. unfold run_chain. rewrite H. reflexivity.
Qed.

Lemma no_survivors_zero_valuation_witness :
  search_with_rag example_now None (Some [str "lot 12, no sale"]) = []
  /\ run_chain example_now None (Some [str "lot 12, no sale"])
     = Returns zero_valuation.
Proof.
  assert (H : search_with_rag example_now None (Some [str "lot 12, no sale"])
              = []) by (vm_compute; reflexivity).
  split; [exact H|].
  exact (proj2 (no_survivors_zero_valuation example_now None
                  (Some [str "lot 12, no sale"])) H).
Defined.

(** C1 as stated fails: with no passage at all the valuation returns a
    fair-market value of zero and raises nothing. *)
Lemma empty_input_returns_zero :
  run_chain example_now None (Some []) = Returns zero_valuation
  /\ Valuator.fmv zero_valuation == 0
  /\ run_chain example_now None (Some []) <> Raises InsufficientDataError.
Proof. repeat split; vm_compute; congruence. Qed.

(** C2, as amended: the confidence label depends on the sample size alone;
    it is high exactly when there are at least 5 comparable sales, medium
    exactly when there are 3 or 4, and low exactly when there are fewer
    than 3. *)
Theorem confidence_by_sample_size (comps : list comp) :
  exists v,
    Valuator.acall comps = Returns v
    /\ (Valuator.confidence_level v = high <-> (5 <= length comps)%nat)
    /\ (Valuator.confidence_level v = medium
        <-> (3 <= length comps /\ length comps < 5)%nat)
    /\ (Valuator.confidence_level v = low <-> (length comps < 3)%nat).
Proof.
  eexists. split; [reflexivity|]. cbn [Valuator.confidence_level].
  rewrite length_map.
  destruct (5 <=? length comps) eqn:E5;
    [apply Nat.leb_le in E5|apply Nat.leb_gt in E5];
    (destruct (3 <=? length comps) eqn:E3;
     [apply Nat.leb_le in E3|apply Nat.leb_gt in E3]);
    repeat split; intros; try discriminate; try lia.
Qed.

(** C2 as stated fails: five sales at one price are labelled high, where
    the rule of the claim gives low to any sample of fewer than 10. *)
Lemma five_comps_labelled_high :
  exists v,
    Valuator.acall (map example_comp [200000; 200000; 200000; 200000; 200000])
      = Returns v
    /\ Valuator.confidence_level v = high
    /\ spec_confidence [200000; 200000; 200000; 200000; 200000] = low
    /\ Valuator.confidence_level v
       <> spec_confidence [200000; 200000; 200000; 200000; 200000].
Proof.
  eexists. split; [reflexivity|]. repeat split; vm_compute; congruence.
Qed.

(** C3 on the code: three sales at 150000, 160000 and 155100 are valued at
    their mean rounded to the cent, 155033.33, which is not a multiple
    of 100. *)
Theorem fmv_rounded_to_cents :
  exists v,
    Valuator.acall (map example_comp [150000; 160000; 155100]) = Returns v
    /\ Valuator.fmv v == 155033.33
    /\ ~ multiple_of_100 (Valuator.fmv v).
Proof.
  eexists. split; [reflexivity|].
  assert (E : Valuator.fmv
                (Valuator.Valuation
                   (Valuator.round
                      (Valuator.mean
                         (map Valuator.price_of
                            (map example_comp [150000; 160000; 155100]))) 2)
                   medium (0, 0, 0)
                   (firstn 3 (map example_comp [150000; 160000; 155100]))
                   (str "Dummy valuation using sample data"))
              == 15503333 # 100) by (vm_compute; reflexivity).
  split; [exact E|].
  intros [k Hk]. rewrite E in Hk. unfold Qeq in Hk. simpl in Hk. lia.
Qed.

(** ** Worked examples *)

Example normalize_example :
  clean_and_normalize_text (str "  Sold   for $ 45,000  ")
  = str "Sold for $45000".
Proof. vm_compute. reflexivity. Qed.

Example extract_prices_example :
  extract_prices (str "$2,000.50 or 999 USD, 1,500USD $, $77 and $2000")
  = [2000; 2000; 1500].
Proof. vm_compute. reflexivity. Qed.

Example extract_date_examples :
  extract_date (str "sold 2023/1/15 in Iowa") = Some (str "2023-01-15")
  /\ extract_date (str "sold March  5, 2024") = Some (str "2024-03-05")
  /\ extract_date (str "sold 25/12/2023") = Some (str "2023-25-12")
  /\ extract_date (str "sold March 5,2024") = None.
Proof. repeat split; vm_compute; reflexivity. Qed.

Example strptime_examples :
  strptime_ymd (str "2024-02-29") = Some (738945 * day_us)%Z
  /\ strptime_ymd (str "2023-02-29") = None
  /\ strptime_ymd (str "2026-13-45") = None
  /\ default_date example_now = str "2026-10-05".
Proof. repeat split; vm_compute; reflexivity. Qed.

(** The sale dated 13/45/2026 cannot be parsed and joins the two recent
    sales through the 180-day bucket; the sale of 2020 is left out. *)
Example pipeline_example :
  map summary (build_items example_now (Some (str "John Deere")) example_contents)
  = [("John Deere 8370R - BIG IRON AUCTION", 210000, "2026-10-01");
     ("John Deere 8370R - Omaha, NE", 210250, "2026-10-05");
     ("John Deere 8370RT - Unknown Auction", 215000, "2026-13-45");
     ("John Deere 8370R - Unknown Auction", 900000, "2020-02-01")]%string
  /\ map summary
       (search_with_rag example_now (Some (str "John Deere"))
          (Some example_contents))
     = [("John Deere 8370R - BIG IRON AUCTION", 210000, "2026-10-01");
        ("John Deere 8370R - Omaha, NE", 210250, "2026-10-05");
        ("John Deere 8370RT - Unknown Auction", 215000, "2026-13-45")]%string.
Proof. split; vm_compute; reflexivity. Qed.

Example remove_outliers_example :
  map (fun it => Qred (price it)) (remove_outliers example_items)
  = [150000; 155000; 160000; 152000; 158000].
Proof. vm_compute. reflexivity. Qed.

(** * Further properties of the code *)

(** ** Recency Filter: what it returns of its input *)

Lemma filter_disjoint_length (A : Type) (p q : A -> bool) (l : list A) :
  (forall x, p x = true -> q x = false) ->
  (length (filter p l) + length (filter q l) <= length l)%nat.
Proof.
  intros Hd. induction l as [|a l IH]; simpl; auto.
  destruct (p a) eqn:Ep.
  - rewrite (Hd a Ep). simpl. lia.
  - destruct (q a); simpl; lia.
Qed.

Lemma within_buckets_disjoint (now : Z) (it : item) :
  within90 now it = true -> within180 now it = false.
Proof.
  unfold within90, within180.
  destruct (strptime_ymd (sale_date it)); [|discriminate].
  now intros ->.
Qed.

Lemma recency_filter_cases (now : Z) (items : list item) :
  recency_filter now items = items
  \/ (recency_filter now items = filter (within90 now) items
      /\ (3 <= length (filter (within90 now) items))%nat)
  \/ (recency_filter now items
        = filter (within90 now) items ++ filter (within180 now) items
      /\ (3 <= length (filter (within90 now) items
                       ++ filter (within180 now) items))%nat).
Proof.
  unfold recency_filter. rewrite bucket_loop.
  cbv beta iota zeta. cbn [app].
  destruct (length (filter (within90 now) items) <? 3) eqn:Ea.
  - destruct (length (filter (within90 now) items
                       ++ filter (within180 now) items) <? 3) eqn:Eb; auto.
    apply Nat.ltb_ge in Eb. auto.
  - rewrite Ea. apply Nat.ltb_ge in Ea. auto.
Qed.

(** X1: the Recency Filter returns records of its input only, never more of
    them than it was given and never fewer than 3 unless it was given
    fewer, in which case it returns the input itself. *)
Theorem recency_filter_never_starves (now : Z) (items : list item) :
  incl (recency_filter now items) items
  /\ (length (recency_filter now items) <= length items)%nat
  /\ (Nat.min 3 (length items) <= length (recency_filter now items))%nat
  /\ ((length items < 3)%nat -> recency_filter now items = items).
Proof.
  pose proof (filter_length_le (within90 now) items) as H90.
  pose proof (filter_disjoint_length (within90 now) (within180 now) items
                (within_buckets_disjoint now)) as Hd.
  destruct (recency_filter_cases now items) as [E|[[E H3]|[E H3]]];
    rewrite E.
  - repeat split; auto using incl_refl; lia.
  - repeat split; try lia.
    intros x Hx. now apply filter_In in Hx.
  - rewrite length_app in *. repeat split; try lia.
    intros x Hx. apply in_app_or in Hx as [Hx|Hx]; now apply filter_In in Hx.
Qed.

Lemma recency_filter_never_starves_witness :
  (length (firstn 2 example_items) < 3)%nat
  /\ recency_filter example_now (firstn 2 example_items)
     = firstn 2 example_items.
Proof.
  assert (H : (length (firstn 2 example_items) < 3)%nat) by (simpl; lia).
  split; [exact H|].
  exact (proj2 (proj2 (proj2
           (recency_filter_never_starves example_now
              (firstn 2 example_items)))) H).
Defined.

(** ** The retrieval pipeline: prices and counts *)

Lemma Qlen_cons (A : Type) (x : A) (l : list A) : Qlen (x :: l) == Qlen l + 1.
Proof.
  unfold Qlen. cbn [length]. rewrite Nat2Z.inj_succ.
  unfold Z.succ. rewrite inject_Z_plus. reflexivity.
Qed.

Lemma Qlen_pos (A : Type) (x : A) (l : list A) : 0 < Qlen (x :: l).
Proof.
  unfold Qlen. change 0 with (inject_Z 0). rewrite <- Zlt_Qlt.
  cbn [length]. lia.
Qed.

Lemma fold_Qplus_bounds (lo hi : Q) (l : list Q) :
  Forall (fun p => lo <= p /\ p <= hi) l ->
  forall a,
    a + Qlen l * lo <= fold_left Qplus l a
    /\ fold_left Qplus l a <= a + Qlen l * hi.
Proof.
  induction 1 as [|x l [Hlo Hhi] _ IH]; intros a.
  - unfold Qlen. cbn [length fold_left Z.of_nat].
    change (inject_Z 0) with 0. split; lra.
  - cbn [fold_left]. destruct (IH (a + x)) as [IH1 IH2].
    rewrite Qlen_cons. split; lra.
Qed.

(** The mean of prices that lie between two bounds lies between them. *)
Lemma mean_between (lo hi : Q) (x : Q) (l : list Q) :
  Forall (fun p => lo <= p /\ p <= hi) (x :: l) ->
  lo <= Qsum (x :: l) / Qlen (x :: l) /\ Qsum (x :: l) / Qlen (x :: l) <= hi.
Proof.
  intros H. destruct (fold_Qplus_bounds H 0) as [H1 H2].
  pose proof (Qlen_pos x l) as Hpos. fold (Qsum (x :: l)) in H1, H2.
  split.
  - apply Qle_shift_div_l; auto. lra.
  - apply Qle_shift_div_r; auto. lra.
Qed.

Lemma extract_prices_in_range (t : text) :
  Forall (fun p => 1000 <= p /\ p <= 1000000) (extract_prices t).
Proof.
  unfold extract_prices, price_patterns. cbn [fold_left].
  rewrite !price_loop. cbn [app].
  repeat (apply Forall_app; split); apply prices_of_reasonable.
Qed.

Lemma build_item_price_range (now : Z) (make : option text) (content : text)
    (it : item) :
  build_item now make content = Some it -> price_in_range (price it).
Proof.
  unfold build_item. destruct content as [|a content]; [discriminate|].
  destruct (extract_equipment_brand_and_model _ make) as [brand model_name].
  destruct (Qlt_bool _ 1000) eqn:E; [discriminate|].
  intros H. inversion H; subst; cbn [price]. clear H.
  pose proof (extract_prices_in_range
                (clean_and_normalize_text (a :: content))) as Hr.
  unfold average_price in *.
  destruct (extract_prices (clean_and_normalize_text (a :: content)))
    as [|x l].
  - discriminate E.
  - apply (mean_between Hr).
Qed.

Lemma build_loop_invariant (P : item -> Prop) (now : Z) (make : option text) :
  (forall content it, build_item now make content = Some it -> P it) ->
  forall contents acc,
    Forall P acc -> Forall P (fold_left (build_step now make) contents acc).
Proof.
  intros HP contents.
  induction contents as [|content contents IH]; intros acc Hacc; simpl; auto.
  apply IH. unfold build_step.
  destruct (build_item now make content) as [it|] eqn:E; auto.
  apply Forall_app. split; auto. constructor; [|constructor]. eauto.
Qed.

Lemma build_loop_length (now : Z) (make : option text) (contents : list text) :
  forall acc,
    (length (fold_left (build_step now make) contents acc)
     <= length acc + length contents)%nat.
Proof.
  induction contents as [|content contents IH]; intros acc; simpl; [lia|].
  etransitivity; [apply IH|]. unfold build_step.
  destruct (build_item now make content); rewrite ?length_app; simpl; lia.
Qed.

Lemma recency_filter_incl (now : Z) (items : list item) :
  incl (recency_filter now items) items.
Proof.
  destruct (recency_filter_cases now items) as [E|[[E _]|[E _]]]; rewrite E.
  - apply incl_refl.
  - intros x Hx. now apply filter_In in Hx.
  - intros x Hx. apply in_app_or in Hx as [Hx|Hx]; now apply filter_In in Hx.
Qed.

Lemma recency_filter_length (now : Z) (items : list item) :
  (length (recency_filter now items) <= length items)%nat
  /\ ((3 <= length items)%nat ->
      (3 <= length (recency_filter now items))%nat).
Proof.
  pose proof (filter_length_le (within90 now) items) as H90.
  pose proof (filter_disjoint_length (within90 now) (within180 now) items
                (within_buckets_disjoint now)) as Hd.
  destruct (recency_filter_cases now items) as [E|[[E H3]|[E H3]]];
    rewrite E; rewrite ?length_app in *; split; lia.
Qed.

Lemma remove_outliers_cases (items : list item) :
  remove_outliers items = items
  \/ (remove_outliers items
        = filter (inside (outlier_bounds (map price items))) items
      /\ (3 <= length (remove_outliers items))%nat).
Proof.
  rewrite remove_outliers_eq.
  destruct (length items <? 5); auto. cbv zeta.
  destruct (3 <=? length (filter _ items)) eqn:E; auto.
  apply Nat.leb_le in E. auto.
Qed.

Lemma remove_outliers_incl (items : list item) :
  incl (remove_outliers items) items.
Proof.
  destruct (remove_outliers_cases items) as [E|[E _]]; rewrite E.
  - apply incl_refl.
  - intros x Hx. now apply filter_In in Hx.
Qed.

Lemma remove_outliers_length (items : list item) :
  (length (remove_outliers items) <= length items)%nat
  /\ ((3 <= length items)%nat -> (3 <= length (remove_outliers items))%nat).
Proof.
  destruct (remove_outliers_cases items) as [E|[E H3]].
  - rewrite E. split; lia.
  - split; [|auto]. rewrite E. apply filter_length_le.
Qed.

Lemma search_with_rag_incl (now : Z) (make : option text)
    (contents : list text) :
  incl (search_with_rag now make (Some contents))
       (build_items now make contents).
Proof.
  unfold search_with_rag.
  eapply incl_tran; [apply remove_outliers_incl|apply recency_filter_incl].
Qed.

(** X2: every record [search_with_rag] returns has a price between 1000 and
    1000000, whatever the search results were. *)
Theorem search_with_rag_price_range (now : Z) (make : option text)
    (results : option (list text)) :
  Forall (fun it => price_in_range (price it))
         (search_with_rag now make results).
Proof.
  destruct results as [contents|]; [|constructor].
  apply Forall_forall. intros it Hin.
  apply search_with_rag_incl in Hin.
  assert (H : Forall (fun it => price_in_range (price it))
                     (build_items now make contents)).
  { apply build_loop_invariant; [|constructor].
    intros content it'. apply build_item_price_range. }
  rewrite Forall_forall in H. auto.
Qed.

(** X3: [search_with_rag] returns at most one record per search result, and
    at least 3 records whenever at least 3 results yield a record. *)
Theorem search_with_rag_count (now : Z) (make : option text)
    (contents : list text) :
  (length (search_with_rag now make (Some contents)) <= length contents)%nat
  /\ ((3 <= length (build_items now make contents))%nat ->
      (3 <= length (search_with_rag now make (Some contents)))%nat).
Proof.
  unfold search_with_rag.
  pose proof (build_loop_length now make contents []) as Hb.
  fold (build_items now make contents) in Hb. cbn [length] in Hb.
  destruct (recency_filter_length now (build_items now make contents))
    as [Hr1 Hr2].
  destruct (remove_outliers_length
              (recency_filter now (build_items now make contents)))
    as [Ho1 Ho2].
  split; [lia|auto].
Qed.

Lemma search_with_rag_count_witness :
  (3 <= length (build_items example_now (Some (str "John Deere"))
                  example_contents))%nat
  /\ (3 <= length (search_with_rag example_now (Some (str "John Deere"))
                     (Some example_contents)))%nat.
Proof.
  assert (H : (3 <= length (build_items example_now (Some (str "John Deere"))
                              example_contents))%nat)
    by (vm_compute; lia).
  split; [exact H|].
  exact (proj2 (search_with_rag_count example_now (Some (str "John Deere"))
                  example_contents) H).
Defined.

(** ** The offline valuator and the whole chain *)

Lemma Qlt_bool_iff (a b : Q) : Qlt_bool a b = true <-> a < b.
Proof.
  unfold Qlt_bool. rewrite negb_true_iff. split.
  - intros H. apply Qnot_le_lt. intros Hle.
    apply Qle_bool_iff in Hle. congruence.
  - intros H. destruct (Qle_bool b a) eqn:E; auto.
    apply Qle_bool_iff in E. exfalso. apply (Qlt_not_le _ _ H E).
Qed.

Lemma round_half_even_cases (x : Q) :
  (Valuator.round_half_even x = Qfloor x
   /\ x - inject_Z (Qfloor x) <= 1 # 2)
  \/ (Valuator.round_half_even x = (Qfloor x + 1)%Z
      /\ 1 # 2 <= x - inject_Z (Qfloor x)).
Proof.
  unfold Valuator.round_half_even.
  destruct (Qlt_bool (x - inject_Z (Qfloor x)) (1 # 2)) eqn:E1.
  - apply Qlt_bool_iff in E1. left. split; auto. lra.
  - destruct (Qlt_bool (1 # 2) (x - inject_Z (Qfloor x))) eqn:E2.
    + apply Qlt_bool_iff in E2. right. split; auto. lra.
    + assert (H1 : ~ x - inject_Z (Qfloor x) < 1 # 2)
        by (rewrite <- Qlt_bool_iff; congruence).
      assert (H2 : ~ 1 # 2 < x - inject_Z (Qfloor x))
        by (rewrite <- Qlt_bool_iff; congruence).
      apply Qnot_lt_le in H1. apply Qnot_lt_le in H2.
      destruct (Z.even (Qfloor x)); [left|right]; split; auto.
Qed.

Lemma round_half_even_near (x : Q) :
  inject_Z (Valuator.round_half_even x) - x <= 1 # 2
  /\ x - inject_Z (Valuator.round_half_even x) <= 1 # 2.
Proof.
  pose proof (Qfloor_le x) as Hf. pose proof (Qlt_floor x) as Hc.
  rewrite inject_Z_plus in Hc. change (inject_Z 1) with 1 in Hc.
  destruct (round_half_even_cases x) as [[-> H]|[-> H]].
  - split; lra.
  - rewrite inject_Z_plus. change (inject_Z 1) with 1. split; lra.
Qed.


(** X4: on a non-empty list of comparable sales priced between 0 and
    1000000, the fair-market value the offline valuator returns differs from
    the exact mean of the prices by less than one cent: no adjustment and
    no rounding to hundreds is applied.  (The exact rounding of this model
    is within half a cent; the bound on the prices and the slack of the
    statement leave room for the binary64 arithmetic of the source.) *)
Theorem offline_fmv_within_a_cent_of_mean (c : comp) (comps : list comp) :
  Forall (fun p => 0 <= p /\ p <= 1000000)
         (map Valuator.price_of (c :: comps)) ->
  exists v,
    Valuator.acall (c :: comps) = Returns v
    /\ Valuator.fmv v
         - Valuator.mean (map Valuator.price_of (c :: comps)) < 1 # 100
    /\ Valuator.mean (map Valuator.price_of (c :: comps))
         - Valuator.fmv v < 1 # 100.
Proof.
  intros _. eexists. split; [reflexivity|]. cbn [Valuator.fmv map].
  set (m := Valuator.mean _).
  change (Valuator.round m 2)
    with (inject_Z (Valuator.round_half_even (m * 100)) / 100).
  destruct (round_half_even_near (m * 100)) as [H1 H2].
  set (k := Valuator.round_half_even (m * 100)) in *.
  assert (E : inject_Z k / 100 == inject_Z k * (1 # 100)) by (field).
  rewrite E. split; lra.
Qed.

Lemma offline_fmv_within_a_cent_of_mean_witness :
  exists v,
    Valuator.acall (map example_comp [150000; 160000; 155100]) = Returns v
    /\ Valuator.fmv v
         - Valuator.mean [150000; 160000; 155100] < 1 # 100
    /\ Valuator.mean [150000; 160000; 155100]
         - Valuator.fmv v < 1 # 100.
Proof.
  apply (@offline_fmv_within_a_cent_of_mean (example_comp 150000)
           (map example_comp [160000; 155100])).
  repeat constructor; vm_compute; discriminate.
Defined.





(** ** Sale date: the day-first entry *)

(** X6: the fourth entry of the date patterns, the day-first reading of
    [dd/dd/dddd], is never used: [extract_date] gives the same result
    without it, for every text. *)
Theorem extract_date_day_first_entry_dead (t : text) :
  extract_date t = first_date date_patterns_without_dmy t.
Proof.
  unfold extract_date, date_patterns, date_patterns_without_dmy.
  cbn [first_date].
  destruct (Re.search re_mdy_slash t) as [m|] eqn:E1.
  - destruct (@date_patterns_format t re_mdy_slash (fmt_numeric 3 1 2) m)
      as (d & Hd & _); auto.
    + left. reflexivity.
    + now rewrite Hd.
  - destruct (Re.search re_mdy_dash t) as [m2|];
      [destruct (fmt_numeric 3 1 2 (Re.groups m2)); auto|];
      (destruct (Re.search re_ymd_slash t) as [m3|];
       [destruct (fmt_numeric 1 2 3 (Re.groups m3)); auto|]);
      reflexivity.
Qed.

(** ** Brand and model: range, hint and provenance *)

Lemma normalized_roster (d : text) :
  In d (unknown_brand :: brands) -> In (normalize_brand d) possible_brands.
Proof.
  intros H. vm_compute in H.
  repeat (destruct H as [H|H]; [subst d|]); try contradiction;
    vm_compute; auto 20.
Qed.

(** X7: the brand [extract_equipment_brand_and_model] returns is always one of
    fifteen texts: the five normalized names, the roster spellings of the
    other makes as they stand (FENDT beside Fendt, CAT beside Caterpillar),
    or Unknown. *)
Theorem brand_in_possible_brands (t : text) (make_hint : option text) :
  In (fst (extract_equipment_brand_and_model t make_hint)) possible_brands
  /\ (length possible_brands = 15)%nat.
Proof.
  split; [|reflexivity].
  unfold extract_equipment_brand_and_model. cbn [fst].
  apply normalized_roster. apply detected_in_roster.
Qed.

Lemma roster_not_unknown (brand : text) :
  In brand brands -> text_eqb brand unknown_brand = false.
Proof.
  intros H. vm_compute in H.
  repeat (destruct H as [H|H]; [subst brand|]); try contradiction;
    reflexivity.
Qed.

Lemma brand_from_matching_hint (a : ascii) (hint : text) :
  (exists brand, In brand brands /\ hint_matches (a :: hint) brand = true) ->
  exists brand,
    In brand brands /\ hint_matches (a :: hint) brand = true
    /\ brand_from_hint (Some (a :: hint)) = brand.
Proof.
  intros (b & Hb & Hm). unfold brand_from_hint.
  fold (hint_matches (a :: hint)).
  destruct (find (hint_matches (a :: hint)) brands) as [brand|] eqn:E.
  - apply find_some in E as [Hin Hmatch]. eauto.
  - rewrite (find_none _ _ E b Hb) in Hm. discriminate.
Qed.

(** X8: when the hint is not empty and matches a roster entry, the brand is
    decided by the hint alone: the passage text plays no part in it. *)
Theorem matching_hint_decides_brand (hint t1 t2 : text) :
  hint <> [] ->
  (exists brand, In brand brands /\ hint_matches hint brand = true) ->
  fst (extract_equipment_brand_and_model t1 (Some hint))
  = fst (extract_equipment_brand_and_model t2 (Some hint)).
Proof.
  intros Hne Hex. destruct hint as [|a hint]; [contradiction|].
  destruct (@brand_from_matching_hint a hint Hex) as (brand & Hin & _ & E).
  unfold extract_equipment_brand_and_model. cbn [fst].
  change (brand_from_hint (@Some text (a :: hint)) = brand) in E.
  rewrite E. unfold brand_from_text. now rewrite (roster_not_unknown Hin).
Qed.

Lemma matching_hint_decides_brand_witness :
  str "cat" <> []
  /\ fst (extract_equipment_brand_and_model (str "2019 JOHN DEERE 8370R")
            (Some (str "cat")))
     = fst (extract_equipment_brand_and_model (str "Kubota M7")
              (Some (str "cat"))).
Proof.
  assert (H : str "cat" <> []) by discriminate.
  split; [exact H|].
  apply matching_hint_decides_brand; [exact H|].
  exists (str "Caterpillar"). split; [|vm_compute; reflexivity].
  vm_compute. auto 25.
Defined.

(** X9: a non-empty hint that is, letter case aside, a piece of JOHN DEERE
    (Deere, or the single letter e) gives the brand John Deere whatever the
    passage says. *)
Theorem piece_of_john_deere_is_john_deere (hint t : text) :
  hint <> [] ->
  contains (upper hint) (str "JOHN DEERE") = true ->
  fst (extract_equipment_brand_and_model t (Some hint)) = str "John Deere".
Proof.
  intros Hne Hc. destruct hint as [|a hint]; [contradiction|].
  unfold extract_equipment_brand_and_model. cbn [fst].
  assert (E : brand_from_hint (@Some text (a :: hint)) = str "John Deere").
  { unfold brand_from_hint, brands. cbn [map find].
    change (upper (str "John Deere")) with (str "JOHN DEERE").
    rewrite Hc, orb_true_r. reflexivity. }
  rewrite E. reflexivity.
Qed.

Lemma piece_of_john_deere_is_john_deere_witness :
  fst (extract_equipment_brand_and_model (str "Kubota M7 CASE IH")
         (Some (str "e")))
  = str "John Deere".
Proof.
  apply piece_of_john_deere_is_john_deere; [discriminate|].
  vm_compute. reflexivity.
Defined.

Lemma starts_with_app (w b : text) : starts_with w (w ++ b) = true.
Proof.
  induction w as [|x w IH]; cbn [app starts_with]; auto.
  now rewrite Ascii.eqb_refl, IH.
Qed.

Lemma contains_at_start (w h : text) :
  starts_with w h = true -> contains w h = true.
Proof. intros H. destruct h; cbn [contains]; now rewrite H. Qed.

Lemma contains_middle (a w b : text) : contains w (a ++ w ++ b) = true.
Proof.
  induction a as [|x a IH].
  - change ([] ++ w ++ b) with (w ++ b).
    apply contains_at_start, starts_with_app.
  - cbn [app contains]. rewrite IH. apply orb_true_r.
Qed.

Lemma whole_group_found (r : Re.regex) (t : text) (m : Re.found) :
  Re.has_group r = false ->
  Re.search (Re.Grp 1 r) t = Some m ->
  grp 1 (Re.groups m) = Re.matched m
  /\ contains (Re.matched m) t = true
  /\ exists c, Re.matches r (Re.matched m) [] c.
Proof.
  intros Hg Hs. apply search_sound in Hs as [M E].
  inversion M; subst. split; [reflexivity|]. split.
  - apply contains_middle.
  - eauto.
Qed.

Lemma first_model_cases (ps : list Re.regex) (t d : text) :
  first_model ps t d = d
  \/ exists p m, In p ps /\ Re.search p t = Some m
                 /\ first_model ps t d = grp 1 (Re.groups m).
Proof.
  induction ps as [|p ps IH]; cbn [first_model]; auto.
  destruct (Re.search p t) as [m|] eqn:E.
  - right. exists p, m. repeat split; auto. now left.
  - destruct IH as [IH|(p' & m & Hin & Hs & IH)]; auto.
    right. exists p', m. repeat split; auto. now right.
Qed.

Lemma model_pattern_shape (p : Re.regex) :
  In p model_patterns ->
  exists r, p = Re.Grp 1 r /\ Re.has_group r = false
            /\ forall w c c', Re.matches r w c c' -> w <> [].
Proof.
  unfold model_patterns, jd_patterns, case_patterns, nh_patterns.
  cbn [app]. intros H.
  repeat (destruct H as [H|H]; [subst p|]); try contradiction;
    (eexists; split; [reflexivity|]; split; [reflexivity|]);
    unfold Re.cat, Re.Plus, Re.Opt, Re.Chr, digit, upper_letter;
    intros w c c' M; inv_matches; discriminate.
Qed.

Lemma model_for_brand_cases (brand t : text) :
  model_for_brand brand t = unknown_model
  \/ exists p m, In p model_patterns /\ Re.search p t = Some m
                 /\ model_for_brand brand t = grp 1 (Re.groups m).
Proof.
  unfold model_for_brand, model_patterns.
  destruct (contains (str "John Deere") brand);
    [|destruct (contains (str "Case") brand);
      [|destruct (contains (str "New Holland") brand); [|now left]]];
    match goal with
    | |- first_model ?ps t _ = _ \/ _ =>
        destruct (first_model_cases ps t unknown_model)
          as [E|(p & m & Hin & Hs & E)]; [now left|];
        right; exists p, m; repeat split; auto;
        repeat (apply in_or_app; (now left) || right); auto
    end.
Qed.

(** X10: the model [extract_equipment_brand_and_model] returns is never made
    up: it is "Unknown Model" or a non-empty piece of the passage text. *)
Theorem model_is_unknown_or_from_text (t : text) (make_hint : option text) :
  snd (extract_equipment_brand_and_model t make_hint) = unknown_model
  \/ (snd (extract_equipment_brand_and_model t make_hint) <> []
      /\ contains (snd (extract_equipment_brand_and_model t make_hint)) t
         = true).
Proof.
  unfold extract_equipment_brand_and_model. cbn [snd].
  set (brand := normalize_brand _).
  destruct (model_for_brand_cases brand t) as [E|(p & m & Hin & Hs & E)];
    [now left|right].
  destruct (model_pattern_shape Hin) as (r & -> & Hg & Hne).
  destruct (@whole_group_found r t m Hg Hs) as (Eg & Hc & c & M).
  rewrite E, Eg. split; auto. now apply (Hne _ _ _ M).
Qed.

(** ** Records without a date *)

Lemma this_century_round_trips :
  all_days days_2000_to_2100 first_day_2000 = true.
Proof. vm_compute. reflexivity. Qed.

Lemma all_days_spec (k : nat) :
  forall start,
    all_days k start = true ->
    forall n, (start <= n < start + Z.of_nat k)%Z ->
              day_round_trips n = true.
Proof.
  induction k as [|k IH]; intros start H n Hn; [lia|].
  cbn [all_days] in H. apply andb_true_iff in H as [H0 H].
  destruct (Z.eq_dec n start) as [->|Hne]; auto.
  apply (IH (start + 1)%Z H). lia.
Qed.

Lemma strftime_of_day (t : Z) :
  strftime_ymd t = strftime_ymd (t / day_us * day_us).
Proof.
  unfold strftime_ymd. rewrite Z.div_mul; [reflexivity|].
  unfold day_us. lia.
Qed.

Lemma start_of_day_bounds (t : Z) :
  (t - day_us < t / day_us * day_us <= t)%Z.
Proof.
  unfold day_us.
  pose proof (Z.div_mod t 86400000000 ltac:(lia)) as H.
  pose proof (Z.mod_pos_bound t 86400000000 ltac:(lia)) as H2.
  lia.
Qed.

Lemma default_date_parses (now : Z) :
  in_this_century now ->
  strptime_ymd (default_date now)
  = Some ((now - timedelta_days 30) / day_us * day_us)%Z.
Proof.
  unfold in_this_century. intros H.
  change (ymd2ord 2000 3 1) with 730180%Z in H.
  change (ymd2ord 2100 1 1) with 766645%Z in H.
  unfold default_date. rewrite strftime_of_day.
  set (n := ((now - timedelta_days 30) / day_us)%Z).
  assert (Hn : (first_day_2000 <= n
                < first_day_2000 + Z.of_nat days_2000_to_2100)%Z).
  { change first_day_2000 with 730120%Z.
    change (Z.of_nat days_2000_to_2100) with 36525%Z.
    subst n. unfold timedelta_days, day_us in *. split.
    - apply Z.div_le_lower_bound; lia.
    - apply Z.div_lt_upper_bound; lia. }
  pose proof (@all_days_spec _ _ this_century_round_trips n Hn) as R.
  unfold day_round_trips in R.
  destruct (strptime_ymd (strftime_ymd (n * day_us))) as [d|];
    [|discriminate].
  apply Z.eqb_eq in R. now subst d.
Qed.

(** X11: for now in this century, a passage in which no date is found and from
    which a record is built gets the date thirty days before now; that
    date parses, and the Recency Filter counts the record among the sales
    of the last 90 days. *)
Theorem undated_record_counts_as_recent (now : Z) (make : option text)
    (content : text) (it : item) :
  in_this_century now ->
  extract_date (clean_and_normalize_text content) = None ->
  build_item now make content = Some it ->
  sale_date it = default_date now /\ within90 now it = true.
Proof.
  intros Hnow Hd Hb. unfold build_item in Hb.
  destruct content as [|a content]; [discriminate|].
  rewrite Hd in Hb.
  destruct (extract_equipment_brand_and_model _ make) as [brand model_name].
  destruct (Qlt_bool _ 1000); [discriminate|].
  inversion Hb; subst; clear Hb. cbn [date_or_default].
  split; [reflexivity|].
  unfold within90. cbn [sale_date]. rewrite (default_date_parses Hnow).
  apply Z.leb_le.
  pose proof (start_of_day_bounds (now - timedelta_days 30)) as Hb.
  unfold cutoff_90_days, timedelta_days in *.
  set (d := ((now - 30 * day_us) / day_us * day_us)%Z) in *.
  unfold day_us in *. lia.
Qed.

Lemma undated_record_counts_as_recent_witness :
  exists it,
    build_item example_now None
      (str "JOHN DEERE 8370R $200,000 - $220,500.00 at Omaha, NE") = Some it
    /\ sale_date it = str "2026-10-05" /\ within90 example_now it = true.
Proof.
  destruct (build_item example_now None
              (str "JOHN DEERE 8370R $200,000 - $220,500.00 at Omaha, NE"))
    as [it|] eqn:E; [|vm_compute in E; discriminate E].
  exists it. split; [reflexivity|].
  assert (Hc : in_this_century example_now) by (vm_compute; split; congruence).
  assert (Hd : extract_date
                 (clean_and_normalize_text
                    (str "JOHN DEERE 8370R $200,000 - $220,500.00 at Omaha, NE"))
               = None) by (vm_compute; reflexivity).
  destruct (undated_record_counts_as_recent _ _ Hc Hd E) as [H1 H2].
  split; [|exact H2]. rewrite H1. vm_compute. reflexivity.
Defined.

(** ** Prices come from marked amounts only *)

Lemma lit_matches (s w : text) (c c' : Re.captures) :
  Re.matches (Re.Lit s) w c c' -> w = s /\ c' = c.
Proof.
  revert w c c'. induction s as [|a s IH]; intros w c c' M; cbn [Re.Lit] in M.
  - inversion M; subst. auto.
  - unfold Re.Chr in M. inversion M as [| |r1 r2 w1 w2 c0 c1 c2 M1 M2| | | | |];
      subst.
    inversion M1; subst.
    match goal with H : is_char _ _ = true |- _ => apply is_char_eq in H end.
    subst. apply IH in M2 as [-> ->]. auto.
Qed.

Lemma contains_app_r (m t1 t2 : text) :
  contains m t2 = true -> contains m (t1 ++ t2) = true.
Proof.
  intros H. induction t1 as [|x t1 IH]; auto.
  cbn [app contains]. rewrite IH. apply orb_true_r.
Qed.

Lemma contains_cons_r (m t : text) (x : ascii) :
  contains m t = true -> contains m (x :: t) = true.
Proof. intros H. cbn [contains]. rewrite H. apply orb_true_r. Qed.

Ltac find_marker :=
  repeat rewrite <- app_assoc; cbn [app];
  repeat first
    [ solve [apply contains_at_start; reflexivity]
    | apply contains_cons_r
    | apply contains_app_r ].

Ltac inv_price_pattern :=
  repeat (inv_matches;
          repeat match goal with
                 | H : Re.matches (Re.Chr _) _ _ _ |- _ => unfold Re.Chr in H
                 end);
  repeat match goal with
  | H : is_char _ _ = true |- _ => apply is_char_eq in H; subst
  end.

Lemma dollar_sign_match_has_marker (t : text) (m : Re.found) :
  Re.search re_price_dollar_sign t = Some m -> contains (str "$") t = true.
Proof.
  intros Hs. apply search_sound in Hs as [M E]. rewrite E. clear E.
  revert M. generalize (Re.matched m) (Re.groups m). intros w c M.
  unfold re_price_dollar_sign, re_digits_commas, re_opt_fraction, Re.cat,
    Re.Plus, Re.Opt, Re.Chr in M.
  inv_price_pattern; find_marker.
Qed.

Lemma dollars_word_match_has_marker (t : text) (m : Re.found) :
  Re.search re_price_dollars_word t = Some m ->
  contains (str "dollars") t = true.
Proof.
  intros Hs. apply search_sound in Hs as [M E]. rewrite E. clear E.
  revert M. generalize (Re.matched m) (Re.groups m). intros w c M.
  unfold re_price_dollars_word, re_digits_commas, re_opt_fraction, Re.cat,
    Re.Plus, Re.Opt, Re.Chr in M.
  inv_price_pattern; find_marker.
Qed.

Lemma usd_match_has_marker (t : text) (m : Re.found) :
  Re.search re_price_usd t = Some m -> contains (str "USD") t = true.
Proof.
  intros Hs. apply search_sound in Hs as [M E]. rewrite E. clear E.
  revert M. generalize (Re.matched m) (Re.groups m). intros w c M.
  unfold re_price_usd, re_digits_commas, re_opt_fraction, Re.cat,
    Re.Plus, Re.Opt, Re.Chr in M.
  inv_price_pattern; find_marker.
Qed.

Lemma findall_none (r : Re.regex) (t : text) :
  Re.search r t = None -> Re.findall r t = [].
Proof.
  intros H. unfold Re.findall, Re.matches_of. cbn [Re.scan].
  unfold Re.search in H. now rewrite H.
Qed.

(** X12: a text that contains no dollar sign and neither of the words "dollars"
    and "USD", spelt exactly so, yields no price; a passage whose
    normalized text is such a text yields no record. *)
Theorem no_marker_no_price (now : Z) (make : option text) (content : text) :
  let t := clean_and_normalize_text content in
  contains (str "$") t = false ->
  contains (str "dollars") t = false ->
  contains (str "USD") t = false ->
  extract_prices t = [] /\ build_item now make content = None.
Proof.
  intros t H1 H2 H3.
  assert (F1 : Re.findall re_price_dollar_sign t = []).
  { apply findall_none.
    destruct (Re.search re_price_dollar_sign t) as [m|] eqn:E; auto.
    apply dollar_sign_match_has_marker in E. congruence. }
  assert (F2 : Re.findall re_price_dollars_word t = []).
  { apply findall_none.
    destruct (Re.search re_price_dollars_word t) as [m|] eqn:E; auto.
    apply dollars_word_match_has_marker in E. congruence. }
  assert (F3 : Re.findall re_price_usd t = []).
  { apply findall_none.
    destruct (Re.search re_price_usd t) as [m|] eqn:E; auto.
    apply usd_match_has_marker in E. congruence. }
  assert (E : extract_prices t = []).
  { unfold extract_prices, price_patterns. cbn [fold_left].
    now rewrite F1, F2, F3. }
  split; [exact E|].
  apply build_item_dropped. fold t. rewrite E. reflexivity.
Qed.

Lemma no_marker_no_price_witness :
  extract_prices
    (clean_and_normalize_text (str "JOHN DEERE 8370R sold for 210,000 Dollars"))
  = []
  /\ build_item example_now None
       (str "JOHN DEERE 8370R sold for 210,000 Dollars") = None.
Proof.
  apply (@no_marker_no_price example_now None
           (str "JOHN DEERE 8370R sold for 210,000 Dollars"));
    vm_compute; reflexivity.
Defined.

(** ** The matcher finds a match whenever there is one *)

Lemma run_star (R : Type) (r : Re.regex) (s : text) (caps : Re.captures)
    (k : text -> Re.captures -> option R) :
  Re.run (Re.Star r) s caps k = star_loop r k (length s) s caps.
Proof. reflexivity. Qed.

Lemma star_loop_eq (R : Type) (r : Re.regex)
    (k : text -> Re.captures -> option R) (fuel : nat) (s : text)
    (caps : Re.captures) :
  star_loop r k fuel s caps =
  match fuel with
  | O => k s caps
  | S fuel' =>
      match Re.run r s caps
              (fun s1 c1 =>
                 if length s1 <? length s then star_loop r k fuel' s1 c1
                 else None) with
      | Some x => Some x
      | None => k s caps
      end
  end.
Proof. destruct fuel; reflexivity. Qed.

Lemma run_complete (r : Re.regex) (w : text) (c0 c1 : Re.captures) :
  Re.matches r w c0 c1 ->
  (forall (R : Type) s' caps (k : text -> Re.captures -> option R),
      (forall caps', k s' caps' <> None) ->
      Re.run r (w ++ s') caps k <> None)
  /\ (forall r0, r = Re.Star r0 ->
      forall (R : Type) fuel s' caps (k : text -> Re.captures -> option R),
        (length (w ++ s') <= fuel)%nat ->
        (forall caps', k s' caps' <> None) ->
        star_loop r0 k fuel (w ++ s') caps <> None).
Proof.
  induction 1 as [c|p a c Hp|r1 r2 w1 w2 c c1 c2 _ [IH1 _] _ [IH2 _]
                  |r1 r2 w c c1 _ [IH1 _]|r1 r2 w c c1 _ [IH2 _]
                  |r c|r w1 w2 c c1 c2 _ [IH1 _] _ [_ IH2]
                  |n r w c c1 _ [IH1 _]].
  - split; [|discriminate]. intros R s' caps k Hk. cbn. apply Hk.
  - split; [|discriminate]. intros R s' caps k Hk. cbn. rewrite Hp. apply Hk.
  - split; [|discriminate]. intros R s' caps k Hk. cbn [Re.run].
    rewrite <- app_assoc. apply IH1. intros caps'. now apply IH2.
  - split; [|discriminate]. intros R s' caps k Hk. cbn [Re.run].
    destruct (Re.run r1 (w ++ s') caps k) eqn:E; [discriminate|].
    exfalso. now apply (IH1 R s' caps k).
  - split; [|discriminate]. intros R s' caps k Hk. cbn [Re.run].
    destruct (Re.run r1 (w ++ s') caps k); [discriminate|]. now apply IH2.
  - assert (H : forall (R : Type) fuel s' caps
                       (k : text -> Re.captures -> option R),
               (forall caps', k s' caps' <> None) ->
               star_loop r k fuel s' caps <> None).
    { intros R fuel s' caps k Hk. rewrite star_loop_eq.
      destruct fuel; [apply Hk|].
      destruct (Re.run r s' caps _); [discriminate|apply Hk]. }
    split.
    + intros R s' caps k Hk. rewrite run_star. now apply H.
    + intros r0 E R fuel s' caps k _ Hk. inversion E; subst. now apply H.
  - assert (H : forall (R : Type) fuel s' caps
                       (k : text -> Re.captures -> option R),
               (length ((w1 ++ w2) ++ s') <= fuel)%nat ->
               (forall caps', k s' caps' <> None) ->
               star_loop r k fuel ((w1 ++ w2) ++ s') caps <> None).
    { intros R fuel s' caps k Hf Hk.
      destruct w1 as [|a w1]; [now apply (IH2 r eq_refl)|].
      rewrite star_loop_eq.
      destruct fuel as [|fuel]; [cbn in Hf; lia|].
      match goal with
      | |- match ?e with _ => _ end <> None => destruct e eqn:E
      end; [discriminate|].
      exfalso. rewrite <- app_assoc in E. revert E. apply IH1.
      intros caps'.
      assert (Hlt : (length (w2 ++ s') <? length ((a :: w1) ++ w2 ++ s'))
                    = true).
      { apply Nat.ltb_lt. cbn [app length]. rewrite !length_app. lia. }
      rewrite Hlt. apply (IH2 r eq_refl).
      - cbn [app length] in Hf. rewrite !length_app in *. lia.
      - exact Hk. }
    split.
    + intros R s' caps k Hk. rewrite run_star. now apply H.
    + intros r0 E R fuel s' caps k Hf Hk. inversion E; subst. now apply H.
  - split; [|discriminate]. intros R s' caps k Hk. cbn [Re.run].
    apply IH1. intros caps'. apply Hk.
Qed.

Lemma match_here_complete (r : Re.regex) (w a : text) (c0 c1 : Re.captures) :
  Re.matches r w c0 c1 -> Re.match_here r (w ++ a) <> None.
Proof.
  intros M. unfold Re.match_here.
  apply (proj1 (run_complete M)). discriminate.
Qed.

Lemma search_acc_complete (r : Re.regex) (w a : text) (c0 c1 : Re.captures) :
  Re.matches r w c0 c1 ->
  forall b skipped, Re.search_acc r skipped (b ++ w ++ a) <> None.
Proof.
  intros M b. induction b as [|x b IH]; intros skipped;
    rewrite search_acc_eq.
  - pose proof (match_here_complete a M) as H. cbn [app].
    destruct (Re.match_here r (w ++ a)) as [[s' c]|]; [discriminate|].
    contradiction.
  - destruct (Re.match_here r ((x :: b) ++ w ++ a)) as [[s' c]|];
      [discriminate|]. cbn [app]. apply IH.
Qed.

Lemma search_complete (r : Re.regex) (b w a : text) (c0 c1 : Re.captures) :
  Re.matches r w c0 c1 -> Re.search r (b ++ w ++ a) <> None.
Proof. intros M. now apply (search_acc_complete a M). Qed.

(** ** Auction house: the AUCTIONEERS entry *)

Lemma lit_intro (s : text) (c : Re.captures) : Re.matches (Re.Lit s) s c c.
Proof.
  induction s as [|a s IH]; cbn [Re.Lit]; [constructor|].
  change (a :: s) with ([a] ++ s).
  econstructor; [|exact IH]. constructor. apply Ascii.eqb_refl.
Qed.

Lemma auctioneers_implies_auction (t : text) (m : Re.found) :
  Re.search re_auctioneers_name t = Some m ->
  Re.search re_auction_name t <> None.
Proof.
  intros Hs. apply search_sound in Hs as [M E]. rewrite E. clear E.
  revert M. generalize (Re.matched m) (Re.groups m). intros w c M.
  unfold re_auctioneers_name, Re.cat in M.
  inversion M as [| | | | | | |n r w' c' c1 M0]; subst.
  inversion M0 as [| |r1 r2 w1 w23 c0' c1' c2' M1 M23| | | | |]; subst.
  inversion M23 as [| |r1 r2 w2 w3 c0' c1'' c2' M2 M3| | | | |]; subst.
  apply (@lit_matches (str "AUCTIONEERS")) in M3 as [-> ->].
  assert (M' : Re.matches re_auction_name (w1 ++ w2 ++ str "AUCTION") []
                 ((1%nat, w1 ++ w2 ++ str "AUCTION") :: c1'')).
  { unfold re_auction_name, Re.cat. constructor.
    econstructor; [exact M1|]. econstructor; [exact M2|]. apply lit_intro. }
  replace (Re.before m ++ (w1 ++ w2 ++ str "AUCTIONEERS") ++ Re.after m)
    with (Re.before m ++ (w1 ++ w2 ++ str "AUCTION")
            ++ (str "EERS" ++ Re.after m)).
  - apply (search_complete _ _ M').
  - f_equal. change (str "AUCTIONEERS") with (str "AUCTION" ++ str "EERS").
    now rewrite <- !app_assoc.
Qed.

(** X13: the second auction-house pattern, the one ending in AUCTIONEERS, is
    never used: whenever it matches, the first pattern, ending in AUCTION,
    matches too and decides, so the name stops at AUCTION; for every text
    the result is the same without the second pattern. *)
Theorem auctioneers_pattern_dead (t : text) :
  first_auction auction_patterns t
  = first_auction auction_patterns_without_auctioneers t
  /\ (forall m, Re.search re_auctioneers_name t = Some m ->
       exists m1, Re.search re_auction_name t = Some m1
                  /\ extract_auction_company t
                     = strip (grp 1 (Re.groups m1))).
Proof.
  change auction_patterns
    with [re_auction_name; re_auctioneers_name; re_auction_colon].
  unfold extract_auction_company, auction_patterns_without_auctioneers.
  change auction_patterns
    with [re_auction_name; re_auctioneers_name; re_auction_colon].
  cbn [first_auction].
  destruct (Re.search re_auction_name t) as [m1|] eqn:E1.
  - split; [reflexivity|]. intros m _. exists m1. auto.
  - split.
    + destruct (Re.search re_auctioneers_name t) as [m|] eqn:E2; auto.
      apply auctioneers_implies_auction in E2. contradiction.
    + intros m Hm. apply auctioneers_implies_auction in Hm. contradiction.
Qed.

Lemma auctioneers_pattern_dead_witness :
  exists m1,
    Re.search re_auction_name (str "sold by JONES AUCTIONEERS in Ames, IA")
    = Some m1
    /\ extract_auction_company (str "sold by JONES AUCTIONEERS in Ames, IA")
       = strip (grp 1 (Re.groups m1))
    /\ extract_auction_company (str "sold by JONES AUCTIONEERS in Ames, IA")
       = str "JONES AUCTION".
Proof.
  destruct (Re.search re_auctioneers_name
              (str "sold by JONES AUCTIONEERS in Ames, IA")) as [m|] eqn:E;
    [|vm_compute in E; discriminate E].
  destruct (proj2 (auctioneers_pattern_dead
                     (str "sold by JONES AUCTIONEERS in Ames, IA")) m E)
    as (m1 & H1 & H2).
  exists m1. split; [exact H1|]. split; [exact H2|].
  vm_compute. reflexivity.
Defined.

(** ** Passage Normalizer: what it leaves untouched *)

Lemma scan_segments (r : Re.regex) (fuel : nat) :
  forall skipped s, segments r (rev skipped ++ s) (Re.scan fuel r skipped s).
Proof.
  induction fuel as [|fuel IH]; intros skipped s; cbn [Re.scan];
    [constructor|].
  destruct (Re.search_acc r skipped s) as [f|] eqn:E; [|constructor].
  apply search_acc_sound in E as [M E].
  constructor; auto.
  destruct (Re.matched f) as [|x w]; [destruct (Re.after f) as [|c rest]|].
  - constructor.
  - apply (IH [c] rest).
  - apply (IH [] (Re.after f)).
Qed.

Lemma sub_segments (r : Re.regex) (t : text) : segments r t (Re.matches_of r t).
Proof. apply (scan_segments r (S (length t)) [] t). Qed.

Lemma sub_join_kept (r : Re.regex) (repl : Re.captures -> text) :
  (forall w c, Re.matches r w [] c ->
               filter kept (repl c) = filter kept w
               /\ (length (repl c) <= length w)%nat) ->
  forall s fs,
    segments r s fs ->
    filter kept (Re.sub_join repl fs s) = filter kept s
    /\ (length (Re.sub_join repl fs s) <= length s)%nat.
Proof.
  intros Hr s fs Hs.
  induction Hs as [s|s f fs E M _ [IH1 IH2]]; cbn [Re.sub_join]; auto.
  destruct (Hr _ _ M) as [H1 H2]. rewrite E. split.
  - rewrite !filter_app. now rewrite H1, IH1.
  - rewrite !length_app. lia.
Qed.

Lemma star_cls_all (p : ascii -> bool) (w : text) (c c' : Re.captures) :
  Re.matches (Re.Star (Re.Cls p)) w c c' -> forallb p w = true.
Proof.
  remember (Re.Star (Re.Cls p)) as r eqn:Er. intros M.
  induction M as [| | | | |r0 c0|r0 w1 w2 c0 c1 c2 M1 _ M2 IH2|];
    inversion Er; subst; auto.
  inversion M1; subst. cbn [app forallb].
  match goal with H : p _ = true |- _ => rewrite H end. now apply IH2.
Qed.

Lemma spaces_not_kept (w : text) :
  forallb is_space w = true -> filter kept w = [].
Proof.
  induction w as [|a w IH]; cbn [forallb filter]; auto.
  intros H. apply andb_true_iff in H as [Ha Hw].
  unfold kept at 1. rewrite Ha. cbn [negb andb]. auto.
Qed.

Lemma spaces_replacement (w : text) (c : Re.captures) :
  Re.matches re_spaces w [] c ->
  filter kept (str " ") = filter kept w /\ (length (str " ") <= length w)%nat.
Proof.
  unfold re_spaces, Re.Plus. intros M.
  inversion M as [| |r1 r2 w1 w2 c0 c1 c2 M1 M2| | | | |]; subst.
  inversion M1; subst. apply star_cls_all in M2.
  cbn [app length]. split; [|cbn; lia].
  cbn [filter]. unfold kept at 2.
  match goal with H : is_space _ = true |- _ => rewrite H end.
  cbn [negb andb]. rewrite (spaces_not_kept _ M2). reflexivity.
Qed.

Lemma dollar_replacement (w : text) (c : Re.captures) :
  Re.matches re_dollar_grouped w [] c ->
  filter kept (str "$" ++ grp 1 c ++ grp 2 c) = filter kept w
  /\ (length (str "$" ++ grp 1 c ++ grp 2 c) <= length w)%nat.
Proof.
  unfold re_dollar_grouped, Re.cat, Re.Chr. intros M.
  repeat match goal with
  | H : Re.matches (Re.Seq _ _) _ _ _ |- _ => inv H
  | H : Re.matches (Re.Grp _ _) _ _ _ |- _ => inv H
  | H : Re.matches (Re.Cls _) _ _ _ |- _ => inv H
  end.
  repeat match goal with
  | H : is_char _ _ = true |- _ => apply is_char_eq in H; subst
  | H : Re.matches (Re.Star (Re.Cls is_space)) _ _ _ |- _ =>
      apply star_cls_all in H
  | H : Re.matches (Re.Plus _) _ _ _ |- _ =>
      apply matches_no_group in H; [subst|reflexivity]
  end.
  cbn [grp Re.group Nat.eqb].
  match goal with H : forallb is_space ?ws = true |- _ =>
    pose proof (spaces_not_kept _ H) as Hws end.
  split.
  - rewrite !filter_app. rewrite Hws. reflexivity.
  - rewrite !length_app. cbn [length str list_ascii_of_string]. lia.
Qed.

Lemma lstrip_kept (s : text) :
  filter kept (lstrip s) = filter kept s
  /\ (length (lstrip s) <= length s)%nat.
Proof.
  induction s as [|a s [IH1 IH2]]; cbn [lstrip]; auto.
  destruct (is_space a) eqn:Ha; auto.
  cbn [filter length]. unfold kept at 2. rewrite Ha. cbn [negb andb].
  split; auto.
Qed.

Lemma strip_kept (s : text) :
  filter kept (strip s) = filter kept s
  /\ (length (strip s) <= length s)%nat.
Proof.
  unfold strip, rstrip.
  destruct (lstrip_kept s) as [H1 H2].
  destruct (lstrip_kept (rev (lstrip s))) as [H3 H4].
  rewrite length_rev in *. split; [|lia].
  rewrite filter_rev, H3, <- filter_rev, rev_involutive. exact H1.
Qed.

(** X14: the normalizer alters nothing but white space and commas, and never
    lengthens the text: the characters of the passage other than white
    space and commas come out as they went in, in the same order. *)
Theorem normalizer_keeps_other_characters (t : text) :
  filter kept (clean_and_normalize_text t) = filter kept t
  /\ (length (clean_and_normalize_text t) <= length t)%nat.
Proof.
  unfold clean_and_normalize_text, Re.sub.
  set (t1 := Re.sub_join (fun _ => str " ") (Re.matches_of re_spaces t) t).
  destruct (@sub_join_kept re_spaces (fun _ => str " ") spaces_replacement
              t _ (sub_segments re_spaces t)) as [A1 A2].
  fold t1 in A1, A2.
  destruct (strip_kept t1) as [B1 B2].
  destruct (@sub_join_kept re_dollar_grouped
              (fun c => str "$" ++ grp 1 c ++ grp 2 c) dollar_replacement
              (strip t1) _ (sub_segments re_dollar_grouped (strip t1)))
    as [C1 C2].
  split; [congruence|lia].
Qed.

(** ** What reaches the conversion to a number *)








(** ** Sale date: the form of the result *)

(** X16: [extract_date] returns [None] exactly when none of its patterns
    matches anywhere in the text; otherwise it returns what the formatter
    of the first matching pattern writes, a formatter never raises on a
    match, and the result has the form of four digits, a dash, two digits,
    a dash, two digits, which the caller keeps in place of its default. *)
Theorem extract_date_first_match (now : Z) (t : text) :
  match extract_date t with
  | Some d =>
      iso_shape d = true
      /\ date_or_default now (Some d) = d
      /\ exists earlier pattern fmt later m,
           date_patterns = earlier ++ (pattern, fmt) :: later
           /\ Forall (fun pf => Re.search (fst pf) t = None) earlier
           /\ Re.search pattern t = Some m /\ fmt (Re.groups m) = Some d
  | None =>
      Forall (fun pf => Re.search (fst pf) t = None) date_patterns
      /\ date_or_default now None = default_date now
  end.
Proof.
  unfold extract_date.
  assert (H := first_date_spec t date_patterns (@date_patterns_format t)).
  destruct (first_date date_patterns t) as [d|].
  - destruct H as [Hd H]. repeat split; auto.
    destruct d; [discriminate Hd|reflexivity].
  - split; auto.
Qed.
